(** * blockchain/tasks.go: event synchronisation and job completion

    A shallow embedding of the routines of [Processor] in
    blockchain/tasks.go: processEvents, processJobCompletions and
    submitOldJobsForCompletion, with the properties the design document
    states about them and further properties read off the code.

    Conventions.
    - A Go [[]byte] is a [list byte]; the nil slice and the empty slice are
      both [[]], and a slice has no spare capacity (cap = len).
    - A [*big.Int] is a [Z].
    - A bolt bucket is a finite map from keys to values; [bucket.Get]
      returning nil is [None].
    - A value of Go's [error] interface is a [string] (its message); the
      pair (result, error) of a Go call is a sum.
    - A run-time panic (slice bounds out of range) is the [Panic] outcome.
    - The ledger, the contract binding and encoding/json are outside the
      file; they are inputs of the model. *)

From Stdlib Require Import ZArith List Bool Lia.
From Stdlib Require Import Strings.Byte Strings.Ascii.
From stdpp Require Import base option countable gmap strings sorting.
Import ListNotations.

Set Default Proof Using "Type".
Local Open Scope Z_scope.

(** ** Bytes *)

Abbreviation bytes := (list byte).

#[global] Instance byte_eq_dec : EqDecision byte.
Proof.
  intros a b. destruct (Byte.eqb a b) eqn:E.
  - left. now apply Byte.byte_dec_bl.
  - right. intros H. apply Byte.byte_dec_lb in H. congruence.
Defined.

#[global] Instance byte_countable : Countable byte :=
  inj_countable Byte.to_N Byte.of_N Byte.of_to_N.

(** Go's [error] values and (value, error) results. *)
Definition error := string.
Definition Result (A : Type) : Type := (A + error)%type.

(** ** Outcome of code that may panic *)

Inductive outcome (A : Type) : Type :=
| Return (a : A)
| Panic (msg : string).
Arguments Return {A} a.
Arguments Panic {A} msg.

Definition obind {A B} (m : outcome A) (k : A -> outcome B) : outcome B :=
  match m with
  | Return a => k a
  | Panic msg => Panic msg
  end.

#[global] Instance outcome_ret : MRet outcome := @Return.
#[global] Instance outcome_bind : MBind outcome := fun A B k m => obind m k.

(** [s[lo:hi]] on a slice without spare capacity: panics unless
    [lo <= hi <= len s]. *)
Definition slice (s : bytes) (lo hi : nat) : outcome bytes :=
  if (lo <=? hi)%nat && (hi <=? length s)%nat
  then Return (firstn (hi - lo) (skipn lo s))
  else Panic "slice bounds out of range".

(** ** go-ethereum [common] and [math/big] helpers used by the file *)

Module common.

Definition AddressLength : nat := 20.

(** [Address.SetBytes]: keep the last 20 bytes of a longer input, left-pad
    a shorter one with zeros. [BytesToAddress(b).Bytes()] is the result. *)
Definition BytesToAddress (b : bytes) : bytes :=
  let b := skipn (length b - AddressLength) b in
  repeat x00 (AddressLength - length b) ++ b.

Definition hexval (c : ascii) : option N :=
  let n := N_of_ascii c in
  if ((48 <=? n) && (n <=? 57))%N then Some (n - 48)%N
  else if ((97 <=? n) && (n <=? 102))%N then Some (n - 87)%N
  else if ((65 <=? n) && (n <=? 70))%N then Some (n - 55)%N
  else None.

(** [hex.Decode]: pairs of hex digits; decoding stops at the first
    character that is not a hex digit, keeping what was decoded. *)
Fixpoint hexpairs (s : list ascii) : bytes :=
  match s with
  | a :: b :: rest =>
      match hexval a, hexval b with
      | Some x, Some y =>
          match Byte.of_N (16 * x + y) with
          | Some c => c :: hexpairs rest
          | None => []
          end
      | _, _ => []
      end
  | _ => []
  end.

Definition has0xPrefix (s : list ascii) : bool :=
  match s with
  | "0"%char :: ("x"%char | "X"%char) :: _ => true
  | _ => false
  end.

(** [common.FromHex]: optional 0x prefix, odd length padded with a
    leading zero digit, errors of the decoder ignored (Hex2Bytes). *)
Definition FromHex (s : string) : bytes :=
  let l := String.list_ascii_of_string s in
  let l := if has0xPrefix l then skipn 2 l else l in
  let l := if Nat.odd (length l) then "0"%char :: l else l in
  hexpairs l.

End common.

Module big.

(** [new(big.Int).SetBytes(b)]: [b] read as a big-endian unsigned
    integer. *)
Definition SetBytes (b : bytes) : Z :=
  fold_left (fun acc x => 256 * acc + Z.of_N (Byte.to_N x)) b 0.

End big.

(** ** Job records and their serialisation *)

(** Modelled from the spec: the job state constants [jobPendingState] and
    [jobFundedState] are declared outside tasks.go; the spec gives the
    enumeration {Pending, Funded}. [jobNoState] stands for the zero value a
    fresh [db.Job{}] carries before tasks.go assigns a state. *)
Inductive JobStateT : Type :=
| jobNoState
| jobPendingState
| jobFundedState.

#[global] Instance JobStateT_eq_dec : EqDecision JobStateT.
Proof. solve_decision. Defined.

(** Modelled from the spec: the record type [db.Job] is declared outside
    tasks.go; the fields are those tasks.go reads and writes, which are the
    spec's jobAddress, consumer, state, completionRequested ([Completed])
    and completionSignature ([JobSignature]). *)
Record Job : Type := mkJob {
  JobAddress : bytes;
  Consumer : bytes;
  JobSignature : bytes;
  JobState : JobStateT;
  Completed : bool
}.

#[global] Instance Job_eq_dec : EqDecision Job.
Proof. solve_decision. Defined.

(** [&db.Job{}] *)
Definition newJob : Job := mkJob [] [] [] jobNoState false.

Definition setJobAddress (a : bytes) (j : Job) : Job :=
  mkJob a (Consumer j) (JobSignature j) (JobState j) (Completed j).
Definition setConsumer (c : bytes) (j : Job) : Job :=
  mkJob (JobAddress j) c (JobSignature j) (JobState j) (Completed j).
Definition setJobState (s : JobStateT) (j : Job) : Job :=
  mkJob (JobAddress j) (Consumer j) (JobSignature j) s (Completed j).

(** encoding/json on [db.Job]. [Unmarshal data j] is [json.Unmarshal(data,
    &j)]: it returns the destination as the call leaves it, together with
    the error, if any. *)
Class JSON : Type := {
  Marshal : Job -> Result bytes;
  Unmarshal : bytes -> Job -> Job * option error
}.

(** What encoding/json guarantees on such a record: decoding the bytes
    [Marshal] produced into a fresh record gives the record back. *)
Definition roundtrip `{JSON} : Prop :=
  forall (j : Job) (bs : bytes),
    Marshal j = inl bs -> Unmarshal bs newJob = (j, None).

(** ** The store *)

Module bolt.

Abbreviation Bucket := (gmap bytes bytes).

Definition Get (b : Bucket) (key : bytes) : option bytes := b !! key.

(** [bucket.Put] and [bucket.Delete] inside [db.Update]. Their errors
    (empty or oversized key, oversized value, read-only transaction)
    cannot arise for the keys tasks.go uses, so the error branches that
    only log are left out. *)
Definition Put (b : Bucket) (key value : bytes) : Bucket := <[key := value]> b.
Definition Delete (b : Bucket) (key : bytes) : Bucket := delete key b.

End bolt.

Record DB : Type := mkDB {
  ChainBucket : gmap bytes bytes;
  JobBucket : gmap bytes bytes
}.

Definition lastBlockKey : bytes := String.list_byte_of_string "lastBlock".

(** ** The ledger as one iteration sees it *)

Inductive EventID : Type := jobCreatedID | jobFundedID | jobCompletedID.

#[global] Instance EventID_eq_dec : EqDecision EventID.
Proof. solve_decision. Defined.

Record FilterQuery : Type := mkQuery {
  FromBlock : Z;
  ToBlock : Z;
  Addresses : list bytes;
  Topics : list (list EventID)
}.

Record Log : Type := mkLog { Data : bytes }.

(** The answers of the node during one iteration: the raw
    [eth_blockNumber] call and [ethClient.FilterLogs]. *)
Record Ledger : Type := mkLedger {
  eth_blockNumber : Result string;
  FilterLogs : FilterQuery -> Result (list Log)
}.

Record Config : Type := mkConfig {
  PollSleep : Z;
  AgentContractAddress : string
}.

(** ** The completion transaction and its status *)

Record Signature : Type := mkSignature {
  sigV : Z;
  sigR : bytes;
  sigS : bytes
}.

Record TransactOpts : Type := mkOpts {
From : bytes;
Signer : bytes;
GasLimit : Z
}.

Record Transaction : Type := mkTransaction { Hash : bytes }.

(** Answer of [ethClient.TransactionByHash]. *)
Inductive TxLookup : Type :=
| Found (tx : Transaction) (isPending : bool)
| LookupFailed (err : error).

(** The three values the call returns: go-ethereum returns
    [nil, false, err] on each of its error paths. *)
Definition returned (a : TxLookup) : option Transaction * bool * option error :=
  match a with
  | Found tx isPending => (Some tx, isPending, None)
  | LookupFailed err => (None, false, Some err)
  end.

(** What the routines do besides writing the store: sleeps, log lines
    (message and error; the structured fields are left out) and calls to
    the node, with the answer where a later definition reads it. *)
Inductive effect : Type :=
| Sleep (d : Z)
| LogError (msg : string) (err : error)
| LogDebug (msg : string)
| CallBlockNumber
| CallFilterLogs (q : FilterQuery)
| CallCompleteJob (opts : TransactOpts) (job : bytes) (sig : Signature)
                  (res : Result Transaction)
| CallTransactionByHash (hash : bytes) (res : TxLookup).

(** ** processEvents *)

Module Events.
Section WithJSON.
Context `{JSON}.

(** [job := &db.Job{}] followed by [json.Unmarshal(jobBytes, job)] when
    the key is present. The error of [json.Unmarshal] is dropped, as in
    the source. *)
Definition readJob (jobBytes : option bytes) : Job :=
  match jobBytes with
  | Some bs => fst (Unmarshal bs newJob)
  | None => newJob
  end.

(** Marshal and put, or log the marshalling error. *)
Definition writeJob (bucket : bolt.Bucket) (jobAddressBytes : bytes) (job : Job)
  : list effect * bolt.Bucket :=
  match Marshal job with
  | inl jobBytes => ([], bolt.Put bucket jobAddressBytes jobBytes)
  | inr err => ([LogError "error marshaling job" err], bucket)
  end.

(** The record the JobCreated branch writes: the three assignments on
    the record read from the bucket. *)
Definition createdJob (bucket : bolt.Bucket) (jobAddressBytes jobConsumerBytes : bytes)
  : Job :=
  let job := readJob (bolt.Get bucket jobAddressBytes) in
  let job := setJobAddress jobAddressBytes job in
  let job := setConsumer jobConsumerBytes job in
  setJobState jobPendingState job.

(** Body of the loop over JobCreated logs, after the two addresses were
    cut out of the log data. *)
Definition mergeCreated (bucket : bolt.Bucket) (jobAddressBytes jobConsumerBytes : bytes)
  : list effect * bolt.Bucket :=
  let job := createdJob bucket jobAddressBytes jobConsumerBytes in
  let '(t, bucket') := writeJob bucket jobAddressBytes job in
  (LogDebug "received JobCreated event; saving to db" :: t, bucket').

(** The record the JobFunded branch writes. *)
Definition fundedJob (bucket : bolt.Bucket) (jobAddressBytes : bytes) : Job :=
  let job := readJob (bolt.Get bucket jobAddressBytes) in
  let job := setJobAddress jobAddressBytes job in
  setJobState jobFundedState job.

(** Body of the loop over JobFunded logs. *)
Definition mergeFunded (bucket : bolt.Bucket) (jobAddressBytes : bytes)
  : list effect * bolt.Bucket :=
  let job := fundedJob bucket jobAddressBytes in
  let '(t, bucket') := writeJob bucket jobAddressBytes job in
  (LogDebug "received JobFunded event; saving to db" :: t, bucket').

(** Body of the loop over JobCompleted logs. *)
Definition mergeCompleted (bucket : bolt.Bucket) (jobAddressBytes : bytes)
  : list effect * bolt.Bucket :=
  ([LogDebug "received JobCompleted event; deleting from db"],
   bolt.Delete bucket jobAddressBytes).

(** One pass of a loop body on one log: the slice expressions on
    [Data] come first and may panic. *)
Definition onCreatedLog (bucket : bolt.Bucket) (lg : Log)
  : list effect * outcome bolt.Bucket :=
  match a ← slice (Data lg) 0 32; c ← slice (Data lg) 32 64; mret (a, c) with
  | Return (a, c) =>
      let '(t, b) := mergeCreated bucket (common.BytesToAddress a)
                                         (common.BytesToAddress c) in
      (t, Return b)
  | Panic msg => ([], Panic msg)
  end.

Definition onFundedLog (bucket : bolt.Bucket) (lg : Log)
  : list effect * outcome bolt.Bucket :=
  match slice (Data lg) 0 32 with
  | Return a =>
      let '(t, b) := mergeFunded bucket (common.BytesToAddress a) in
      (t, Return b)
  | Panic msg => ([], Panic msg)
  end.

Definition onCompletedLog (bucket : bolt.Bucket) (lg : Log)
  : list effect * outcome bolt.Bucket :=
  match slice (Data lg) 0 32 with
  | Return a =>
      let '(t, b) := mergeCompleted bucket (common.BytesToAddress a) in
      (t, Return b)
  | Panic msg => ([], Panic msg)
  end.

(** [for _, lg := range logs { body }] inside one [db.Update]: the
    bucket is threaded through the passes; a panic ends the loop. *)
Fixpoint forLogs (body : bolt.Bucket -> Log -> list effect * outcome bolt.Bucket)
         (logs : list Log) (bucket : bolt.Bucket)
  : list effect * outcome bolt.Bucket :=
  match logs with
  | [] => ([], Return bucket)
  | lg :: rest =>
      match body bucket lg with
      | (t, Return bucket') =>
          let '(t', r) := forLogs body rest bucket' in (t ++ t', r)
      | (t, Panic msg) => (t, Panic msg)
      end
  end.

Definition query (cfg : Config) (fromBlock currentBlock : Z) (id : EventID)
  : FilterQuery :=
  {| FromBlock := fromBlock;
     ToBlock := currentBlock;
     Addresses := [common.BytesToAddress (common.FromHex (AgentContractAddress cfg))];
     Topics := [[id]] |}.

(** One of the three [if logs, err := FilterLogs(...); err == nil]
    blocks: the logs are merged in one transaction when there are any;
    a failed query is logged and nothing else happens. *)
Definition scan (cfg : Config) (l : Ledger) (fromBlock currentBlock : Z)
           (id : EventID)
           (body : bolt.Bucket -> Log -> list effect * outcome bolt.Bucket)
           (errmsg : string) (bucket : bolt.Bucket)
  : list effect * outcome bolt.Bucket :=
  let q := query cfg fromBlock currentBlock id in
  match FilterLogs l q with
  | inl logs =>
      if (0 <? length logs)%nat
      then let '(t, r) := forLogs body logs bucket in (CallFilterLogs q :: t, r)
      else ([CallFilterLogs q], Return bucket)
  | inr err => ([CallFilterLogs q; LogError errmsg err], Return bucket)
  end.

(** State of the routine between two statements: the committed store,
    what was done so far, and whether the goroutine is still running (a
    panic inside [db.Update] rolls that transaction back and ends the
    process). *)
Record Run : Type := mkRun {
  db : DB;
  trace : list effect;
  alive : bool
}.

(** A transaction on the job bucket, sequenced after [r]. *)
Definition thenJobs (r : Run)
           (tx : bolt.Bucket -> list effect * outcome bolt.Bucket) : Run :=
  if alive r then
    match tx (JobBucket (db r)) with
    | (t, Return jobs) =>
        mkRun (mkDB (ChainBucket (db r)) jobs) (trace r ++ t) true
    | (t, Panic _) => mkRun (db r) (trace r ++ t) false
    end
  else r.

(** The final [db.Update] that stores the current block. *)
Definition thenCheckpoint (r : Run) (currentBlockBytes : bytes) : Run :=
  if alive r then
    mkRun (mkDB (bolt.Put (ChainBucket (db r)) lastBlockKey currentBlockBytes)
                (JobBucket (db r)))
          (trace r) true
  else r.

(** [lastBlock] as the iteration computes it: the stored value when
    there is one, the block before the current one otherwise. *)
Definition readLastBlock (d : DB) (currentBlock : Z) : Z :=
  match bolt.Get (ChainBucket d) lastBlockKey with
  | Some lastBlockBytes => big.SetBytes lastBlockBytes
  | None => currentBlock - 1
  end.

(** One pass of the [for] loop of processEvents. *)
Definition iteration (cfg : Config) (l : Ledger) (d : DB) : Run :=
  let start := mkRun d [Sleep (PollSleep cfg); CallBlockNumber] true in
  match eth_blockNumber l with
  | inr err =>
      mkRun d (trace start ++ [LogError "error determining current block" err]) true
  | inl currentBlockHex =>
      let currentBlockBytes := common.FromHex currentBlockHex in
      let currentBlock := big.SetBytes currentBlockBytes in
      let lastBlock := readLastBlock d currentBlock in
      let fromBlock := lastBlock + 1 in
      if fromBlock <=? currentBlock then
        let r := thenJobs start
                   (scan cfg l fromBlock currentBlock jobCreatedID onCreatedLog
                         "error getting job created logs") in
        let r := thenJobs r
                   (scan cfg l fromBlock currentBlock jobFundedID onFundedLog
                         "error getting job funded logs") in
        let r := thenJobs r
                   (scan cfg l fromBlock currentBlock jobCompletedID onCompletedLog
                         "error getting job completed logs") in
        thenCheckpoint r currentBlockBytes
      else start
  end.

(** The loop, unrolled over the ledger's answers to successive
    iterations; it ends when the goroutine has panicked. *)
Fixpoint processEvents (cfg : Config) (ls : list Ledger) (d : DB) : Run :=
  match ls with
  | [] => mkRun d [] true
  | l :: rest =>
      let r := iteration cfg l d in
      if alive r then
        let r' := processEvents cfg rest (db r) in
        mkRun (db r') (trace r ++ trace r') (alive r')
      else r
  end.

(** ** Vocabulary of the statements *)

(** The addresses a log carries, when its data is long enough. *)
Definition jobAddressOf (lg : Log) : bytes :=
  common.BytesToAddress (firstn 32 (Data lg)).
Definition consumerOf (lg : Log) : bytes :=
  common.BytesToAddress (firstn 32 (skipn 32 (Data lg))).

(** The record stored under an address, as [readJob] decodes it. *)
Definition storedJob (bucket : bolt.Bucket) (a : bytes) : option Job :=
  match bolt.Get bucket a with
  | Some bs => Some (fst (Unmarshal bs newJob))
  | None => None
  end.

(** The persisted checkpoint, as a number. *)
Definition checkpoint (d : DB) : option Z :=
  match bolt.Get (ChainBucket d) lastBlockKey with
  | Some bs => Some (big.SetBytes bs)
  | None => None
  end.

(** Order on checkpoints: absent is below every value. *)
Definition checkpointLe (a b : option Z) : Prop :=
  match a, b with
  | None, _ => True
  | Some x, Some y => x <= y
  | Some _, None => False
  end.

(** The log queries of a trace, in order. *)
Definition queriesOf (t : list effect) : list FilterQuery :=
  flat_map (fun e => match e with CallFilterLogs q => [q] | _ => [] end) t.

(** Bytes of data the loop body of an event kind slices. *)
Definition dataLength (id : EventID) : nat :=
  match id with
  | jobCreatedID => 64%nat
  | jobFundedID | jobCompletedID => 32%nat
  end.

(** Every log the node returns for one event kind carries at least the
    ABI-encoded arguments of that event. *)
Definition wellFormed (l : Ledger) : Prop :=
  forall (q : FilterQuery) (id : EventID) (logs : list Log),
    Topics q = [[id]] ->
    FilterLogs l q = inl logs ->
    Forall (fun lg => (dataLength id <= length (Data lg))%nat) logs.

(** What one event kind contributes to the job bucket: its logs merged
    when the query succeeded, nothing when it failed. *)
Definition merged (body : bolt.Bucket -> Log -> list effect * outcome bolt.Bucket)
           (res : Result (list Log)) (bucket : bolt.Bucket) : bolt.Bucket :=
  match res with
  | inl logs =>
      match snd (forLogs body logs bucket) with
      | Return b => b
      | Panic _ => bucket
      end
  | inr _ => bucket
  end.

End WithJSON.
End Events.

(** ** processJobCompletions *)

Module Completions.

Record jobInfo : Type := mkJobInfo {
  jobAddressBytes : bytes;
  jobSignatureBytes : bytes
}.

(** The fields of [Processor] the routine reads. *)
Record Processor : Type := mkProcessor {
  privateKey : bytes;
  address : string
}.

(** [parseSignature] is declared outside tasks.go: it returns v, r, s
    and an error. *)
Class SignatureParser : Type :=
  parseSignature : bytes -> Signature * option error.

(** The node and the contract binding as one step of the routine sees
    them. *)
Record Chain : Type := mkChain {
  CompleteJob : TransactOpts -> bytes -> Signature -> Result Transaction;
  TransactionByHash : bytes -> TxLookup
}.

(** Where the goroutine stands: at the channel receive of the outer
    [for ... range], or at the status call of the inner [for]. *)
Inductive Position : Type :=
| Receiving
| Polling (txn : Transaction).

Record Worker : Type := mkWorker {
  queue : list jobInfo;
  position : Position
}.

(** [time.Second], in nanoseconds. *)
Definition Second : Z := 1000000000.

Section WithParser.
Context `{SignatureParser}.

(** From one call to the node to the next. At [Receiving] with an empty
    channel the goroutine is blocked. *)
Definition step (p : Processor) (c : Chain) (w : Worker) : Worker * list effect :=
  match position w with
  | Receiving =>
      match queue w with
      | [] => (w, [])
      | jobInfo :: rest =>
          let '(sig, err) := parseSignature (jobSignatureBytes jobInfo) in
          let t1 := match err with
                    | Some e => [LogError "error parsing job signature" e]
                    | None => []
                    end in
          let opts := {| From := common.BytesToAddress (common.FromHex (address p));
                         Signer := privateKey p;
                         GasLimit := 1000000 |} in
          let job := common.BytesToAddress (jobAddressBytes jobInfo) in
          let res := CompleteJob c opts job sig in
          let t2 := [LogDebug "submitting transaction to complete job";
                     CallCompleteJob opts job sig res] in
          match res with
          | inr e =>
              (mkWorker rest Receiving,
               t1 ++ t2 ++ [LogError "error submitting transaction to complete job" e])
          | inl txn => (mkWorker rest (Polling txn), t1 ++ t2)
          end
      end
  | Polling txn =>
      let res := TransactionByHash c (Hash txn) in
      let '(_, isPending, _) := returned res in
      if negb isPending
      then (mkWorker (queue w) Receiving, [CallTransactionByHash (Hash txn) res])
      else (w, [CallTransactionByHash (Hash txn) res; Sleep (Second * 1)])
  end.

(** What happens around the goroutine: a producer sends on the channel,
    or the goroutine makes its next step against the chain as it is
    then. The channel's capacity is not modelled. *)
Inductive input : Type :=
| Enqueue (j : jobInfo)
| Tick (c : Chain).

Definition react (p : Processor) (i : input) (w : Worker) : Worker * list effect :=
  match i with
  | Enqueue j => (mkWorker (queue w ++ [j]) (position w), [])
  | Tick c => step p c w
  end.

Fixpoint processJobCompletions (p : Processor) (ins : list input) (w : Worker)
  : Worker * list effect :=
  match ins with
  | [] => (w, [])
  | i :: rest =>
      let '(w', t) := react p i w in
      let '(w'', t') := processJobCompletions p rest w' in
      (w'', t ++ t')
  end.

End WithParser.

(** Hashes of the transactions a trace leaves outstanding, under two
    readings of when a submitted transaction stops being outstanding. *)
Definition forget (h : bytes) (hs : list bytes) : list bytes :=
  List.filter (fun h' => negb (bool_decide (h' = h))) hs.

(** Until a status call answers, without error, that it is not
    pending. *)
Definition unconfirmedAfter (hs : list bytes) (e : effect) : list bytes :=
  match e with
  | CallCompleteJob _ _ _ (inl txn) => hs ++ [Hash txn]
  | CallTransactionByHash h (Found _ false) => forget h hs
  | _ => hs
  end.

Definition unconfirmed (t : list effect) : list bytes :=
  fold_left unconfirmedAfter t [].

(** Until a status call comes back with the pending flag false, which
    is also what a failed call comes back with. *)
Definition inFlightAfter (hs : list bytes) (e : effect) : list bytes :=
  match e with
  | CallCompleteJob _ _ _ (inl txn) => hs ++ [Hash txn]
  | CallTransactionByHash h res =>
      if negb (snd (fst (returned res))) then forget h hs else hs
  | _ => hs
  end.

Definition inFlight (t : list effect) : list bytes :=
  fold_left inFlightAfter t [].

(** The transaction the goroutine is waiting on, if any. *)
Definition awaited (w : Worker) : list bytes :=
  match position w with
  | Receiving => []
  | Polling txn => [Hash txn]
  end.

End Completions.

(** ** submitOldJobsForCompletion *)

Module Recovery.

(** Order of the keys of a bucket, as [bytes.Compare] has it: byte by byte,
    a proper prefix first. *)
Fixpoint keyLeb (a b : bytes) : bool :=
  match a, b with
  | [], _ => true
  | _ :: _, [] => false
  | x :: a', y :: b' =>
      if (Byte.to_N x <? Byte.to_N y)%N then true
      else if (Byte.to_N x =? Byte.to_N y)%N then keyLeb a' b'
      else false
  end.

Definition entryLe (x y : bytes * bytes) : Prop := Is_true (keyLeb (fst x) (fst y)).

#[global] Instance entryLe_dec (x y : bytes * bytes) : Decision (entryLe x y).
Proof. unfold entryLe. apply _. Defined.

(** The key/value pairs [bucket.ForEach] visits, in the order of their
    keys. *)
Definition ForEach (b : gmap bytes bytes) : list (bytes * bytes) :=
  merge_sort entryLe (map_to_list b).

Section WithJSON.
Context `{JSON}.

(** The callback of [ForEach]: decode into a fresh record, the error of
    [json.Unmarshal] dropped; a record flagged [Completed] is logged and
    sent on the completion queue. *)
Definition visit (kv : bytes * bytes) : list effect * list Completions.jobInfo :=
  let job := fst (Unmarshal (snd kv) newJob) in
  if Completed job
  then ([LogDebug "completing old job found in db"],
        [Completions.mkJobInfo (JobAddress job) (JobSignature job)])
  else ([], []).

(** The routine: what it logs and what it sends on the queue, in order. *)
Definition submitOldJobsForCompletion (d : DB)
  : list effect * list Completions.jobInfo :=
  (flat_map (fun kv => fst (visit kv)) (ForEach (JobBucket d)),
   flat_map (fun kv => snd (visit kv)) (ForEach (JobBucket d))).

(** The request a stored value gives rise to, if any. *)
Definition requestOf (bs : bytes) : list Completions.jobInfo :=
  snd (visit ([], bs)).

End WithJSON.
End Recovery.

(** ** More vocabulary *)

(** The job addresses of the submissions of a trace, in order. *)
Definition submittedJobs (t : list effect) : list bytes :=
  flat_map (fun e => match e with CallCompleteJob _ job _ _ => [job] | _ => [] end) t.

(** The address a request is submitted under. *)
Definition submissionAddress (j : Completions.jobInfo) : bytes :=
  common.BytesToAddress (Completions.jobAddressBytes j).

(** The requests producers send during a run. *)
Definition enqueued (ins : list Completions.input) : list Completions.jobInfo :=
  flat_map (fun i => match i with Completions.Enqueue j => [j] | Completions.Tick _ => [] end) ins.

(** The options of every submission of a trace are [opts]. *)
Definition submitsWith (opts : TransactOpts) (t : list effect) : Prop :=
  Forall (fun e => match e with
                   | CallCompleteJob o _ _ _ => o = opts
                   | _ => True
                   end) t.

(** Every status call of a trace asks about the one transaction in flight
    at that point, [hs] being in flight before the trace. *)
Fixpoint pollsInFlight (hs : list bytes) (t : list effect) : Prop :=
  match t with
  | [] => True
  | e :: t' =>
      match e with
      | CallTransactionByHash h _ => hs = [h]
      | _ => True
      end /\ pollsInFlight (Completions.inFlightAfter hs e) t'
  end.

(** The pending flag a chain reports for a hash. *)
Definition reportsPending (c : Completions.Chain) (h : bytes) : bool :=
  snd (fst (returned (Completions.TransactionByHash c h))).

(** One turn of the wait loop on a report of pending: the call, then the
    sleep. *)
Definition waitTurn (h : bytes) (c : Completions.Chain) : list effect :=
  [CallTransactionByHash h (Completions.TransactionByHash c h);
   Sleep (Completions.Second * 1)].

(** Steps the routine still needs when no status call reports pending. *)
Definition stepsLeft (w : Completions.Worker) : nat :=
  2 * length (Completions.queue w)
  + match Completions.position w with
    | Completions.Receiving => 0
    | Completions.Polling _ => 1
    end.

(** ** Instances used in the examples

    A small serialisation of job records with the round-trip property, a
    serialisation that always fails, and a parser of 65-byte signatures. *)

Module Sample.

Definition encList (l : bytes) : bytes :=
  flat_map (fun b => [x01; b]) l ++ [x00].

Fixpoint decList (bs : bytes) : option (bytes * bytes) :=
  match bs with
  | x00 :: rest => Some ([], rest)
  | x01 :: b :: rest =>
      match decList rest with
      | Some (l, r) => Some (b :: l, r)
      | None => None
      end
  | _ => None
  end.

Definition encState (s : JobStateT) : byte :=
  match s with
  | jobNoState => x00
  | jobPendingState => x01
  | jobFundedState => x02
  end.

Definition decState (b : byte) : option JobStateT :=
  match b with
  | x00 => Some jobNoState
  | x01 => Some jobPendingState
  | x02 => Some jobFundedState
  | _ => None
  end.

Definition encBool (b : bool) : byte := if b then x01 else x00.

Definition decBool (b : byte) : option bool :=
  match b with
  | x00 => Some false
  | x01 => Some true
  | _ => None
  end.

Definition marshal (j : Job) : Result bytes :=
  inl (encList (JobAddress j) ++ encList (Consumer j) ++ encList (JobSignature j)
       ++ [encState (JobState j); encBool (Completed j)]).

(** Fields are filled in as they are decoded; on an error the
    destination keeps what was decoded before it. *)
Definition unmarshal (bs : bytes) (j : Job) : Job * option error :=
  match decList bs with
  | None => (j, Some "invalid job address")
  | Some (a, r1) =>
      let j := setJobAddress a j in
      match decList r1 with
      | None => (j, Some "invalid consumer")
      | Some (c, r2) =>
          let j := setConsumer c j in
          match decList r2 with
          | None => (j, Some "invalid signature")
          | Some (g, r3) =>
              let j := mkJob (JobAddress j) (Consumer j) g (JobState j) (Completed j) in
              match r3 with
              | [s; d] =>
                  match decState s, decBool d with
                  | Some s', Some d' =>
                      (mkJob (JobAddress j) (Consumer j) (JobSignature j) s' d', None)
                  | _, _ => (j, Some "invalid state")
                  end
              | _ => (j, Some "unexpected end of input")
              end
          end
      end
  end.

Definition json : JSON := {| Marshal := marshal; Unmarshal := unmarshal |}.

Definition failing : JSON :=
  {| Marshal := fun _ => inr "unsupported value";
     Unmarshal := fun _ j => (j, Some "unexpected end of input") |}.

Definition parser : Completions.SignatureParser :=
  fun sig =>
    if (length sig =? 65)%nat
    then (mkSignature
            (Z.of_N (Byte.to_N (nth 64 sig x00)) mod 27 + 27)
            (firstn 32 sig) (firstn 32 (skipn 32 sig)),
          None)
    else (mkSignature 0 (repeat x00 32) (repeat x00 32),
          Some "job signature incorrect length").

(** The address 0x00..00XX. *)
Definition addr (last : byte) : bytes := repeat x00 19 ++ [last].

(** The 32-byte ABI word of an address. *)
Definition word (a : bytes) : bytes := repeat x00 12 ++ a.

Definition cfg : Config :=
  mkConfig 5000000000 "0x00000000000000000000000000000000000000c0".

Definition emptyDB : DB := mkDB ∅ ∅.

(** Completion requests: two with 65-byte signatures, one with a
    signature the parser rejects. *)
Definition proc : Completions.Processor :=
  Completions.mkProcessor [x01] "0x00000000000000000000000000000000000000c1".

Definition requestAA : Completions.jobInfo :=
  Completions.mkJobInfo (addr xaa) (repeat x01 65).
Definition requestBB : Completions.jobInfo :=
  Completions.mkJobInfo (addr xbb) (repeat x02 65).
Definition malformed : Completions.jobInfo :=
  Completions.mkJobInfo (addr xaa) [x01; x02].

(** A node that accepts every submission (the hash of the transaction
    is the job address here) and fails every status call. *)
Definition flaky : Completions.Chain :=
  Completions.mkChain (fun _ job _ => inl (mkTransaction job))
                      (fun _ => LookupFailed "not found").

(** The job 0x..AA of consumer 0x..BB, its stored form, and the logs
    that name it. *)
Definition jobAA (st : JobStateT) : Job :=
  mkJob (addr xaa) (addr xbb) [] st false.

Definition encoded (j : Job) : bytes :=
  match marshal j with
  | inl bs => bs
  | inr _ => []
  end.

Definition bucketAA (st : JobStateT) : gmap bytes bytes :=
  {[ addr xaa := encoded (jobAA st) ]}.

(** A record whose stored bytes do not decode. *)
Definition garbled : gmap bytes bytes := {[ addr xaa := [x07] ]}.

(** Height 100 with no log at all; height 55 with one JobCreated log,
    a failing JobFunded query and no JobCompleted log; a store whose
    checkpoint is 50. *)
Definition ledger100 : Ledger := mkLedger (inl "0x64") (fun _ => inl []).

Definition db50 : DB := mkDB {[ lastBlockKey := [x32] ]} ∅.

Definition createdAA : Log := mkLog (word (addr xaa) ++ word (addr xbb)).
Definition fundedAA : Log := mkLog (word (addr xaa)).
Definition completedAA : Log := mkLog (word (addr xaa)).

Definition ledger55 : Ledger :=
  mkLedger (inl "0x37")
           (fun q => match Topics q with
                     | [[jobCreatedID]] => inl [createdAA]
                     | [[jobFundedID]] => inr "connection reset"
                     | _ => inl []
                     end).

(** A node that accepts every submission and reports every transaction
    mined; one that reports every transaction pending. *)
Definition steady : Completions.Chain :=
  Completions.mkChain (fun _ job _ => inl (mkTransaction job))
                      (fun h => Found (mkTransaction h) false).

Definition busy : Completions.Chain :=
  Completions.mkChain (fun _ job _ => inl (mkTransaction job))
                      (fun h => Found (mkTransaction h) true).

(** A store with two jobs, the one at 0x..CC flagged for completion with
    signature [x05; x06]. *)
Definition jobCC : Job := mkJob (addr xcc) (addr xbb) [x05; x06] jobFundedState true.

Definition bucketCC : gmap bytes bytes :=
  <[addr xcc := encoded jobCC]> (bucketAA jobPendingState).

(** A JobCreated log cut short. *)
Definition truncated : Log := mkLog (word (addr xaa)).

Definition ledgerTruncated : Ledger :=
  mkLedger (inl "0x37")
           (fun q => match Topics q with
                     | [[jobCreatedID]] => inl [createdAA; truncated]
                     | _ => inl []
                     end).

Definition ledger60 : Ledger :=
  mkLedger (inl "0x3c")
           (fun q => match Topics q with
                     | [[jobCompletedID]] => inl [completedAA]
                     | [[jobFundedID]] => inl [fundedAA]
                     | _ => inl []
                     end).

(** Height 50 with no log; logs that name the job 0x..CC. *)
Definition ledger50 : Ledger := mkLedger (inl "0x32") (fun _ => inl []).

Definition createdCC : Log := mkLog (word (addr xcc) ++ word (addr xbb)).
Definition fundedCC : Log := mkLog (word (addr xcc)).

End Sample.

(** * Properties *)

(** ** The library helpers on examples *)

Example FromHex_0x64 : common.FromHex "0x64" = ["d"%byte].
Proof. reflexivity. Qed.

Example SetBytes_0x64 : big.SetBytes (common.FromHex "0x64") = 100.
Proof. reflexivity. Qed.

Example SetBytes_odd_digits : big.SetBytes (common.FromHex "0x1a4") = 420.
Proof. reflexivity. Qed.

Example BytesToAddress_word :
  common.BytesToAddress (Sample.word (Sample.addr xaa)) = Sample.addr xaa.
Proof. reflexivity. Qed.

Lemma slice_in_range (s : bytes) (lo hi : nat) :
  (lo <= hi)%nat -> (hi <= length s)%nat ->
  slice s lo hi = Return (firstn (hi - lo) (skipn lo s)).
Proof.
  intros Hlo Hhi. unfold slice.
  apply Nat.leb_le in Hlo, Hhi. now rewrite Hlo, Hhi.
Qed.

Lemma slice_returns (s : bytes) (lo hi : nat) (r : bytes) :
  slice s lo hi = Return r -> (hi <= length s)%nat.
Proof.
  unfold slice. destruct (lo <=? hi)%nat; simpl; [|discriminate].
  destruct (hi <=? length s)%nat eqn:E; [|discriminate].
  intros _. now apply Nat.leb_le.
Qed.

(** ** The sample serialisation round-trips *)

Lemma decList_encList (l rest : bytes) :
  Sample.decList (Sample.encList l ++ rest) = Some (l, rest).
Proof.
  unfold Sample.encList. induction l as [|b l IH]; simpl.
  - reflexivity.
  - simpl in IH. now rewrite IH.
Qed.

Lemma sample_roundtrip : roundtrip (H := Sample.json).
Proof.
  intros [a c g s d] bs. simpl. unfold Sample.marshal. simpl.
  intros [= <-]. unfold Sample.unmarshal.
  rewrite decList_encList. simpl. rewrite decList_encList. simpl.
  rewrite decList_encList. simpl.
  destruct s, d; reflexivity.
Qed.

(** ** Merging one log into the job bucket *)

Section MergeFacts.
Context `{JSON}.
Import Events.

Lemma overlay_created_twice (a c : bytes) (j : Job) :
  let j' := setJobState jobPendingState (setConsumer c (setJobAddress a j)) in
  setJobState jobPendingState (setConsumer c (setJobAddress a j')) = j'.
Proof. destruct j; reflexivity. Qed.

Lemma overlay_funded_twice (a : bytes) (j : Job) :
  let j' := setJobState jobFundedState (setJobAddress a j) in
  setJobState jobFundedState (setJobAddress a j') = j'.
Proof. destruct j; reflexivity. Qed.

(** What [writeJob] does, by the outcome of [Marshal]. *)
Lemma writeJob_encoded bucket a job bs :
  Marshal job = inl bs -> writeJob bucket a job = ([], <[a := bs]> bucket).
Proof. unfold writeJob, bolt.Put. now intros ->. Qed.

Lemma writeJob_failed bucket a job e :
  Marshal job = inr e ->
  writeJob bucket a job = ([LogError "error marshaling job" e], bucket).
Proof. unfold writeJob. now intros ->. Qed.

Lemma createdJob_rewritten (RT : roundtrip) bucket a c bs :
  Marshal (createdJob bucket a c) = inl bs ->
  createdJob (<[a := bs]> bucket) a c = createdJob bucket a c.
Proof.
  intros E. unfold createdJob at 1. unfold bolt.Get.
  rewrite lookup_insert_eq. unfold readJob at 1.
  rewrite (RT _ _ E). simpl. apply overlay_created_twice.
Qed.

Lemma fundedJob_rewritten (RT : roundtrip) bucket a bs :
  Marshal (fundedJob bucket a) = inl bs ->
  fundedJob (<[a := bs]> bucket) a = fundedJob bucket a.
Proof.
  intros E. unfold fundedJob at 1. unfold bolt.Get.
  rewrite lookup_insert_eq. unfold readJob at 1.
  rewrite (RT _ _ E). simpl. apply overlay_funded_twice.
Qed.

Lemma mergeCreated_twice (RT : roundtrip) bucket a c :
  snd (mergeCreated (snd (mergeCreated bucket a c)) a c)
  = snd (mergeCreated bucket a c).
Proof.
  unfold mergeCreated at 2 3.
  destruct (Marshal (createdJob bucket a c)) as [bs|e] eqn:E.
  - rewrite (writeJob_encoded _ _ _ _ E). simpl.
    unfold mergeCreated. rewrite (createdJob_rewritten RT _ _ _ _ E).
    rewrite (writeJob_encoded _ _ _ _ E). simpl. apply insert_insert_eq.
  - rewrite (writeJob_failed _ _ _ _ E). simpl.
    unfold mergeCreated. now rewrite (writeJob_failed _ _ _ _ E).
Qed.

Lemma mergeFunded_twice (RT : roundtrip) bucket a :
  snd (mergeFunded (snd (mergeFunded bucket a)) a) = snd (mergeFunded bucket a).
Proof.
  unfold mergeFunded at 2 3.
  destruct (Marshal (fundedJob bucket a)) as [bs|e] eqn:E.
  - rewrite (writeJob_encoded _ _ _ _ E). simpl.
    unfold mergeFunded. rewrite (fundedJob_rewritten RT _ _ _ E).
    rewrite (writeJob_encoded _ _ _ _ E). simpl. apply insert_insert_eq.
  - rewrite (writeJob_failed _ _ _ _ E). simpl.
    unfold mergeFunded. now rewrite (writeJob_failed _ _ _ _ E).
Qed.

(** A loop body on a log with enough data is the merge at the addresses
    the log carries; on a shorter log it panics. *)
Lemma onCreatedLog_merge bucket lg :
  (64 <= length (Data lg))%nat ->
  onCreatedLog bucket lg
  = (fst (mergeCreated bucket (jobAddressOf lg) (consumerOf lg)),
     Return (snd (mergeCreated bucket (jobAddressOf lg) (consumerOf lg)))).
Proof.
  intros Hlen. unfold onCreatedLog.
  rewrite (slice_in_range _ 0 32) by lia.
  rewrite (slice_in_range _ 32 64) by lia. simpl.
  fold (jobAddressOf lg). fold (consumerOf lg).
  now destruct (mergeCreated _ _ _).
Qed.

Lemma onFundedLog_merge bucket lg :
  (32 <= length (Data lg))%nat ->
  onFundedLog bucket lg
  = (fst (mergeFunded bucket (jobAddressOf lg)),
     Return (snd (mergeFunded bucket (jobAddressOf lg)))).
Proof.
  intros Hlen. unfold onFundedLog.
  rewrite (slice_in_range _ 0 32) by lia. simpl.
  fold (jobAddressOf lg). now destruct (mergeFunded _ _).
Qed.

Lemma onCompletedLog_merge bucket lg :
  (32 <= length (Data lg))%nat ->
  onCompletedLog bucket lg
  = (fst (mergeCompleted bucket (jobAddressOf lg)),
     Return (snd (mergeCompleted bucket (jobAddressOf lg)))).
Proof.
  intros Hlen. unfold onCompletedLog.
  rewrite (slice_in_range _ 0 32) by lia. reflexivity.
Qed.

Lemma onCreatedLog_returns bucket lg b1 :
  snd (onCreatedLog bucket lg) = Return b1 -> (64 <= length (Data lg))%nat.
Proof.
  unfold onCreatedLog.
  destruct (slice (Data lg) 0 32) as [a|] eqn:E1; simpl; [|discriminate].
  destruct (slice (Data lg) 32 64) as [c|] eqn:E2; simpl; [|discriminate].
  intros _. now apply slice_returns in E2.
Qed.

Lemma onFundedLog_returns bucket lg b1 :
  snd (onFundedLog bucket lg) = Return b1 -> (32 <= length (Data lg))%nat.
Proof.
  unfold onFundedLog.
  destruct (slice (Data lg) 0 32) as [a|] eqn:E1; simpl; [|discriminate].
  intros _. now apply slice_returns in E1.
Qed.

End MergeFacts.

Section MergeClaims.
Context `{JSON}.
Import Events.

(** C4. Idempotent merge: for every job bucket and every Created or Funded
    log, running the log's merge a second time on the bucket the first run
    produced gives that same bucket again, so the stored record is
    identical to the one a single application stores. The merge of a log
    that carries its ABI-encoded arguments does return. *)
Theorem C4_merge_idempotent (bucket : bolt.Bucket) (lg : Log) :
  roundtrip ->
  (forall b1, snd (onCreatedLog bucket lg) = Return b1 ->
              snd (onCreatedLog b1 lg) = Return b1) /\
  (forall b1, snd (onFundedLog bucket lg) = Return b1 ->
              snd (onFundedLog b1 lg) = Return b1) /\
  ((64 <= length (Data lg))%nat ->
   exists b1, snd (onCreatedLog bucket lg) = Return b1) /\
  ((32 <= length (Data lg))%nat ->
   exists b1, snd (onFundedLog bucket lg) = Return b1).
Proof.
  intros RT. repeat split.
  - intros b1 E. pose proof (onCreatedLog_returns _ _ _ E) as Hlen.
    rewrite onCreatedLog_merge in E by exact Hlen. simpl in E.
    injection E as <-. rewrite onCreatedLog_merge by exact Hlen. simpl.
    f_equal. now apply mergeCreated_twice.
  - intros b1 E. pose proof (onFundedLog_returns _ _ _ E) as Hlen.
    rewrite onFundedLog_merge in E by exact Hlen. simpl in E.
    injection E as <-. rewrite onFundedLog_merge by exact Hlen. simpl.
    f_equal. now apply mergeFunded_twice.
  - intros Hlen. rewrite onCreatedLog_merge by exact Hlen. simpl. eauto.
  - intros Hlen. rewrite onFundedLog_merge by exact Hlen. simpl. eauto.
Qed.

Lemma storedJob_written (RT : roundtrip) (bucket : bolt.Bucket) a job bs :
  Marshal job = inl bs -> storedJob (<[a := bs]> bucket) a = Some job.
Proof.
  intros E. unfold storedJob, bolt.Get. rewrite lookup_insert_eq.
  now rewrite (RT _ _ E).
Qed.

(** C5, as amended. The state a merge stores is the state of its event
    kind. The merge of a Created log whose record encodes stores state
    Pending, whatever the state of the record under the address was before,
    Funded included. The merge of a Funded log whose record encodes stores
    state Funded, and a record stored as Funded is still stored as Funded
    after the merge of any Funded log. *)
Theorem C5_state_follows_event (bucket : bolt.Bucket) (lg : Log) :
  roundtrip ->
  (forall bs, (64 <= length (Data lg))%nat ->
     Marshal (createdJob bucket (jobAddressOf lg) (consumerOf lg)) = inl bs ->
     exists b1, snd (onCreatedLog bucket lg) = Return b1 /\
       (JobState <$> storedJob b1 (jobAddressOf lg)) = Some jobPendingState) /\
  (forall bs, (32 <= length (Data lg))%nat ->
     Marshal (fundedJob bucket (jobAddressOf lg)) = inl bs ->
     exists b1, snd (onFundedLog bucket lg) = Return b1 /\
       (JobState <$> storedJob b1 (jobAddressOf lg)) = Some jobFundedState) /\
  (forall b1, snd (onFundedLog bucket lg) = Return b1 ->
     JobState <$> storedJob bucket (jobAddressOf lg) = Some jobFundedState ->
     JobState <$> storedJob b1 (jobAddressOf lg) = Some jobFundedState).
Proof.
  intros RT. split; [|split].
  - intros bs Hlen E. rewrite onCreatedLog_merge by exact Hlen.
    unfold mergeCreated. rewrite (writeJob_encoded _ _ _ _ E). simpl.
    eexists. split; [reflexivity|].
    now rewrite (storedJob_written RT _ _ _ _ E).
  - intros bs Hlen E. rewrite onFundedLog_merge by exact Hlen.
    unfold mergeFunded. rewrite (writeJob_encoded _ _ _ _ E). simpl.
    eexists. split; [reflexivity|].
    now rewrite (storedJob_written RT _ _ _ _ E).
  - intros b1 E Hold. pose proof (onFundedLog_returns _ _ _ E) as Hlen.
    rewrite onFundedLog_merge in E by exact Hlen. simpl in E.
    injection E as <-. unfold mergeFunded.
    destruct (Marshal (fundedJob bucket (jobAddressOf lg))) as [bs|e] eqn:E.
    + rewrite (writeJob_encoded _ _ _ _ E). simpl.
      now rewrite (storedJob_written RT _ _ _ _ E).
    + now rewrite (writeJob_failed _ _ _ _ E).
Qed.

(** C7, as amended. For a Funded log with the 32 bytes of its argument
    and for a Created log with the 64 bytes of its arguments: when the
    record to write fails to encode, the error is logged and the bucket is
    left as it was; when it encodes, the bytes are put under the job
    address and nothing but the debug line is logged, and this is so
    whether or not the bytes stored before decoded (the record written is
    built from whatever [json.Unmarshal] left in the destination). *)
Theorem C7_write_by_encoding (bucket : bolt.Bucket) (lg : Log) :
  (32 <= length (Data lg))%nat ->
  onFundedLog bucket lg =
    match Marshal (fundedJob bucket (jobAddressOf lg)) with
    | inr e => ([LogDebug "received JobFunded event; saving to db";
                 LogError "error marshaling job" e], Return bucket)
    | inl bs => ([LogDebug "received JobFunded event; saving to db"],
                 Return (<[jobAddressOf lg := bs]> bucket))
    end /\
  ((64 <= length (Data lg))%nat ->
   onCreatedLog bucket lg =
     match Marshal (createdJob bucket (jobAddressOf lg) (consumerOf lg)) with
     | inr e => ([LogDebug "received JobCreated event; saving to db";
                  LogError "error marshaling job" e], Return bucket)
     | inl bs => ([LogDebug "received JobCreated event; saving to db"],
                  Return (<[jobAddressOf lg := bs]> bucket))
     end).
Proof.
  intros Hlen. split.
  - rewrite onFundedLog_merge by exact Hlen. unfold mergeFunded.
    destruct (Marshal (fundedJob _ _)) as [bs|e] eqn:E.
    + now rewrite (writeJob_encoded _ _ _ _ E).
    + now rewrite (writeJob_failed _ _ _ _ E).
  - intros Hlen'. rewrite onCreatedLog_merge by exact Hlen'. unfold mergeCreated.
    destruct (Marshal (createdJob _ _ _)) as [bs|e] eqn:E.
    + now rewrite (writeJob_encoded _ _ _ _ E).
    + now rewrite (writeJob_failed _ _ _ _ E).
Qed.

(** C8. Merging a Funded log for an address that has a stored record
    changes the state to Funded, writes the job address the log carries,
    and keeps the consumer, the signature and the completion flag of the
    record that was stored; records under other addresses are untouched. *)
Theorem C8_funded_keeps_other_fields
        (bucket : bolt.Bucket) (lg : Log) (old bs : bytes) (j : Job) :
  roundtrip ->
  (32 <= length (Data lg))%nat ->
  bucket !! jobAddressOf lg = Some old ->
  fst (Unmarshal old newJob) = j ->
  Marshal (mkJob (jobAddressOf lg) (Consumer j) (JobSignature j)
                 jobFundedState (Completed j)) = inl bs ->
  exists b1,
    onFundedLog bucket lg
    = ([LogDebug "received JobFunded event; saving to db"], Return b1) /\
    storedJob b1 (jobAddressOf lg)
    = Some (mkJob (jobAddressOf lg) (Consumer j) (JobSignature j)
                  jobFundedState (Completed j)) /\
    (forall k, k <> jobAddressOf lg -> b1 !! k = bucket !! k).
Proof.
  intros RT Hlen Hold Hj E.
  exists (<[jobAddressOf lg := bs]> bucket).
  assert (Hjob : fundedJob bucket (jobAddressOf lg)
                 = mkJob (jobAddressOf lg) (Consumer j) (JobSignature j)
                         jobFundedState (Completed j)).
  { unfold fundedJob, bolt.Get. rewrite Hold. simpl. now rewrite Hj. }
  split; [|split].
  - rewrite onFundedLog_merge by exact Hlen. unfold mergeFunded.
    rewrite Hjob. now rewrite (writeJob_encoded _ _ _ _ E).
  - now apply storedJob_written.
  - intros k Hk. now rewrite lookup_insert_ne.
Qed.

End MergeClaims.

(** Round trip, a log and a bucket on which the two merges of C4 run. *)
Lemma C4_witness :
  snd (Events.onCreatedLog (H := Sample.json)
         (snd (Events.mergeCreated (H := Sample.json) (Sample.bucketAA jobFundedState)
                                   (Sample.addr xaa) (Sample.addr xbb)))
         Sample.createdAA)
  = Return (snd (Events.mergeCreated (H := Sample.json) (Sample.bucketAA jobFundedState)
                                     (Sample.addr xaa) (Sample.addr xbb))).
Proof.
  apply (C4_merge_idempotent (H := Sample.json)
           (Sample.bucketAA jobFundedState) Sample.createdAA sample_roundtrip).
  rewrite onCreatedLog_merge by (vm_compute; lia). reflexivity.
Defined.

(** C5 as stated fails: a record stored as Funded is stored as Pending
    after the merge of a Created log for its address. *)
Lemma C5_counterexample :
  JobState <$> Events.storedJob (H := Sample.json)
                 (Sample.bucketAA jobFundedState) (Sample.addr xaa)
  = Some jobFundedState /\
  Events.jobAddressOf Sample.createdAA = Sample.addr xaa /\
  match snd (Events.onCreatedLog (H := Sample.json)
               (Sample.bucketAA jobFundedState) Sample.createdAA) with
  | Return b1 =>
      JobState <$> Events.storedJob (H := Sample.json) b1 (Sample.addr xaa)
      = Some jobPendingState
  | Panic _ => False
  end.
Proof. vm_compute. repeat split. Qed.

(** A Created log merged over a record stored as Funded: the record is
    stored as Pending. *)
Lemma C5_witness :
  exists b1,
    snd (Events.onCreatedLog (H := Sample.json)
           (Sample.bucketAA jobFundedState) Sample.createdAA) = Return b1 /\
    (JobState <$> Events.storedJob (H := Sample.json) b1
                    (Events.jobAddressOf Sample.createdAA))
    = Some jobPendingState.
Proof.
  apply (proj1 (C5_state_follows_event (H := Sample.json)
                  (Sample.bucketAA jobFundedState) Sample.createdAA
                  sample_roundtrip)
               (Sample.encoded (Sample.jobAA jobPendingState))).
  - vm_compute. lia.
  - vm_compute. reflexivity.
Defined.

(** C7 as stated fails: bytes that do not decode are overwritten by the
    merge of a Created log, and nothing is logged about them. *)
Lemma C7_counterexample :
  Sample.garbled !! Sample.addr xaa = Some [x07] /\
  snd (Unmarshal (JSON := Sample.json) [x07] newJob) = Some "invalid job address"%string /\
  Events.onCreatedLog (H := Sample.json) Sample.garbled Sample.createdAA
  = ([LogDebug "received JobCreated event; saving to db"],
     Return (<[Sample.addr xaa := Sample.encoded (Sample.jobAA jobPendingState)]>
               Sample.garbled)) /\
  Sample.encoded (Sample.jobAA jobPendingState) <> [x07].
Proof.
  split; [|split; [|split]].
  - vm_compute. reflexivity.
  - vm_compute. reflexivity.
  - assert (E : Marshal (JSON := Sample.json)
                  (Events.createdJob (H := Sample.json) Sample.garbled
                     (Events.jobAddressOf Sample.createdAA)
                     (Events.consumerOf Sample.createdAA))
                = inl (Sample.encoded (Sample.jobAA jobPendingState)))
      by (vm_compute; reflexivity).
    rewrite onCreatedLog_merge by (vm_compute; lia).
    unfold Events.mergeCreated. rewrite (writeJob_encoded _ _ _ _ E).
    reflexivity.
  - vm_compute. discriminate.
Qed.

(** With a serialisation that fails, a Funded log of 32 bytes writes
    nothing. *)
Lemma C7_witness :
  Events.onFundedLog (H := Sample.failing) (Sample.bucketAA jobPendingState)
                     Sample.fundedAA
  = ([LogDebug "received JobFunded event; saving to db";
      LogError "error marshaling job" "unsupported value"],
     Return (Sample.bucketAA jobPendingState)).
Proof.
  apply (C7_write_by_encoding (H := Sample.failing)
           (Sample.bucketAA jobPendingState) Sample.fundedAA).
  vm_compute. lia.
Defined.

(** The scenario of C8: {0xAA, consumer 0xBB, Pending} and a Funded log
    for 0xAA give {0xAA, consumer 0xBB, Funded}. *)
Lemma C8_witness :
  Events.storedJob (H := Sample.json) (Sample.bucketAA jobPendingState) (Sample.addr xaa)
  = Some (mkJob (Sample.addr xaa) (Sample.addr xbb) [] jobPendingState false) /\
  exists b1,
    Events.onFundedLog (H := Sample.json) (Sample.bucketAA jobPendingState) Sample.fundedAA
    = ([LogDebug "received JobFunded event; saving to db"], Return b1) /\
    Events.storedJob (H := Sample.json) b1 (Sample.addr xaa)
    = Some (mkJob (Sample.addr xaa) (Sample.addr xbb) [] jobFundedState false) /\
    (forall k, k <> Sample.addr xaa -> b1 !! k = Sample.bucketAA jobPendingState !! k).
Proof.
  split; [vm_compute; reflexivity|].
  apply (C8_funded_keeps_other_fields (H := Sample.json)
           (Sample.bucketAA jobPendingState) Sample.fundedAA
           (Sample.encoded (Sample.jobAA jobPendingState))
           (Sample.encoded (Sample.jobAA jobFundedState))
           (Sample.jobAA jobPendingState) sample_roundtrip).
  - vm_compute. lia.
  - vm_compute. reflexivity.
  - vm_compute. reflexivity.
  - vm_compute. reflexivity.
Defined.

(** ** One iteration of processEvents *)

Section IterationFacts.
Context `{JSON}.
Import Events.

Lemma queriesOf_app (t t' : list effect) :
  queriesOf (t ++ t') = queriesOf t ++ queriesOf t'.
Proof. apply flat_map_app. Qed.

Lemma writeJob_quiet bucket a job : queriesOf (fst (writeJob bucket a job)) = [].
Proof. unfold writeJob. now destruct (Marshal job). Qed.

Lemma onCreatedLog_quiet bucket lg : queriesOf (fst (onCreatedLog bucket lg)) = [].
Proof.
  unfold onCreatedLog.
  destruct (slice (Data lg) 0 32); simpl; [|reflexivity].
  destruct (slice (Data lg) 32 64); simpl; [|reflexivity].
  unfold mergeCreated.
  pose proof (writeJob_quiet bucket (common.BytesToAddress a)
                (createdJob bucket (common.BytesToAddress a)
                            (common.BytesToAddress a0))) as Q.
  now destruct (writeJob _ _ _).
Qed.

Lemma onFundedLog_quiet bucket lg : queriesOf (fst (onFundedLog bucket lg)) = [].
Proof.
  unfold onFundedLog.
  destruct (slice (Data lg) 0 32); simpl; [|reflexivity].
  unfold mergeFunded.
  pose proof (writeJob_quiet bucket (common.BytesToAddress a)
                (fundedJob bucket (common.BytesToAddress a))) as Q.
  now destruct (writeJob _ _ _).
Qed.

Lemma onCompletedLog_quiet bucket lg :
  queriesOf (fst (onCompletedLog bucket lg)) = [].
Proof. unfold onCompletedLog. now destruct (slice (Data lg) 0 32). Qed.

(** Loops whose body returns on every log with [n] bytes of data and
    queries nothing. *)
Section Loop.
Variable body : bolt.Bucket -> Log -> list effect * outcome bolt.Bucket.
Variable n : nat.
Hypothesis body_returns :
  forall b lg, (n <= length (Data lg))%nat ->
               exists t b', body b lg = (t, Return b').
Hypothesis body_quiet : forall b lg, queriesOf (fst (body b lg)) = [].

Lemma forLogs_returns logs bucket :
  Forall (fun lg => (n <= length (Data lg))%nat) logs ->
  exists t b', forLogs body logs bucket = (t, Return b') /\ queriesOf t = [].
Proof using body_returns body_quiet.
  intros Hall. revert bucket.
  induction Hall as [|lg logs Hlg _ IH]; intros bucket; simpl.
  - now exists [], bucket.
  - destruct (body_returns bucket lg Hlg) as (t & b' & E).
    pose proof (body_quiet bucket lg) as Q. rewrite E in *. simpl in Q.
    destruct (IH b') as (t' & b'' & E' & Q'). rewrite E'.
    exists (t ++ t'), b''. split; [reflexivity|].
    now rewrite queriesOf_app, Q, Q'.
Qed.

Lemma scan_returns cfg l fromBlock currentBlock id msg bucket :
  wellFormed l -> dataLength id = n ->
  exists t,
    scan cfg l fromBlock currentBlock id body msg bucket
    = (t, Return (merged body
                    (FilterLogs l (query cfg fromBlock currentBlock id)) bucket))
    /\ queriesOf t = [query cfg fromBlock currentBlock id].
Proof using body_returns body_quiet.
  intros WF Hn. unfold scan, merged.
  destruct (FilterLogs l (query cfg fromBlock currentBlock id))
    as [logs|e] eqn:E.
  - assert (Hall : Forall (fun lg => (n <= length (Data lg))%nat) logs).
    { rewrite <- Hn. now apply (WF (query cfg fromBlock currentBlock id)). }
    destruct (forLogs_returns logs bucket Hall) as (t & b' & E' & Q).
    rewrite E'. simpl.
    destruct (0 <? length logs)%nat eqn:L.
    + eexists. split; [reflexivity|]. simpl. now rewrite Q.
    + apply Nat.ltb_ge in L. destruct logs; [|simpl in L; lia].
      simpl in E'. injection E' as <- <-.
      eexists. split; reflexivity.
  - eexists. split; reflexivity.
Qed.
End Loop.

Lemma onCreatedLog_total b lg :
  (64 <= length (Data lg))%nat -> exists t b', onCreatedLog b lg = (t, Return b').
Proof. intros L. rewrite onCreatedLog_merge by exact L. eauto. Qed.

Lemma onFundedLog_total b lg :
  (32 <= length (Data lg))%nat -> exists t b', onFundedLog b lg = (t, Return b').
Proof. intros L. rewrite onFundedLog_merge by exact L. eauto. Qed.

Lemma onCompletedLog_total b lg :
  (32 <= length (Data lg))%nat -> exists t b', onCompletedLog b lg = (t, Return b').
Proof. intros L. rewrite onCompletedLog_merge by exact L. eauto. Qed.

Lemma thenJobs_returns r tx t jobs :
  alive r = true ->
  tx (JobBucket (db r)) = (t, Return jobs) ->
  thenJobs r tx = mkRun (mkDB (ChainBucket (db r)) jobs) (trace r ++ t) true.
Proof. unfold thenJobs. now intros -> ->. Qed.

Lemma thenJobs_chain r tx : ChainBucket (db (thenJobs r tx)) = ChainBucket (db r).
Proof.
  unfold thenJobs. destruct (alive r); [|reflexivity].
  now destruct (tx (JobBucket (db r))) as [t [jobs|msg]].
Qed.

Lemma checkpoint_put chain jobs bs :
  checkpoint (mkDB (bolt.Put chain lastBlockKey bs) jobs) = Some (big.SetBytes bs).
Proof. unfold checkpoint, bolt.Get, bolt.Put. simpl. now rewrite lookup_insert_eq. Qed.

(** An iteration that reads the height and finds [fromBlock <=
    currentBlock], on a ledger whose logs carry their arguments: it
    returns, stores the height, issues the three queries and leaves in
    the job bucket what the three kinds contribute, one after the
    other. *)
Lemma iteration_scans cfg l d hex :
  eth_blockNumber l = inl hex ->
  readLastBlock d (big.SetBytes (common.FromHex hex)) + 1
    <= big.SetBytes (common.FromHex hex) ->
  wellFormed l ->
  let C := big.SetBytes (common.FromHex hex) in
  let q := query cfg (readLastBlock d C + 1) C in
  let r := iteration cfg l d in
  alive r = true /\
  ChainBucket (db r) = <[lastBlockKey := common.FromHex hex]> (ChainBucket d) /\
  checkpoint (db r) = Some C /\
  queriesOf (trace r) = [q jobCreatedID; q jobFundedID; q jobCompletedID] /\
  JobBucket (db r)
  = merged onCompletedLog (FilterLogs l (q jobCompletedID))
      (merged onFundedLog (FilterLogs l (q jobFundedID))
         (merged onCreatedLog (FilterLogs l (q jobCreatedID)) (JobBucket d))).
Proof.
  intros Hhex Hle WF C q r. subst r. unfold iteration. rewrite Hhex.
  fold C. fold C in Hle. apply Z.leb_le in Hle. rewrite Hle.
  set (from := readLastBlock d C + 1). cbv zeta.
  destruct (scan_returns onCreatedLog 64 onCreatedLog_total onCreatedLog_quiet
              cfg l from C jobCreatedID "error getting job created logs"
              (JobBucket d) WF eq_refl) as (t1 & E1 & Q1).
  match goal with |- context [thenJobs ?r0 (scan cfg l from C jobCreatedID onCreatedLog "error getting job created logs")] =>
    rewrite (thenJobs_returns r0 (scan cfg l from C jobCreatedID onCreatedLog "error getting job created logs") t1 _ eq_refl E1)
  end.
  destruct (scan_returns onFundedLog 32 onFundedLog_total onFundedLog_quiet
              cfg l from C jobFundedID "error getting job funded logs"
              (merged onCreatedLog (FilterLogs l (query cfg from C jobCreatedID))
                      (JobBucket d)) WF eq_refl) as (t2 & E2 & Q2).
  match goal with |- context [thenJobs ?r0 (scan cfg l from C jobFundedID onFundedLog "error getting job funded logs")] =>
    rewrite (thenJobs_returns r0 (scan cfg l from C jobFundedID onFundedLog "error getting job funded logs") t2 _ eq_refl E2)
  end.
  destruct (scan_returns onCompletedLog 32 onCompletedLog_total onCompletedLog_quiet
              cfg l from C jobCompletedID "error getting job completed logs"
              (merged onFundedLog (FilterLogs l (query cfg from C jobFundedID))
                 (merged onCreatedLog (FilterLogs l (query cfg from C jobCreatedID))
                         (JobBucket d))) WF eq_refl) as (t3 & E3 & Q3).
  match goal with |- context [thenJobs ?r0 (scan cfg l from C jobCompletedID onCompletedLog "error getting job completed logs")] =>
    rewrite (thenJobs_returns r0 (scan cfg l from C jobCompletedID onCompletedLog "error getting job completed logs") t3 _ eq_refl E3)
  end.
  unfold thenCheckpoint. simpl.
  repeat split.
  - apply checkpoint_put.
  - rewrite !queriesOf_app, Q1, Q2, Q3. reflexivity.
Qed.

(** *** The checkpoint over iterations *)

Lemma checkpointLe_refl a : checkpointLe a a.
Proof. destruct a; simpl; [lia|exact I]. Qed.

Lemma checkpointLe_trans a b c :
  checkpointLe a b -> checkpointLe b c -> checkpointLe a c.
Proof. destruct a, b, c; simpl; try tauto; lia. Qed.

Lemma checkpoint_chain d d' :
  ChainBucket d' = ChainBucket d -> checkpoint d' = checkpoint d.
Proof. unfold checkpoint. now intros ->. Qed.

Lemma iteration_checkpoint cfg l d :
  checkpointLe (checkpoint d) (checkpoint (db (iteration cfg l d))).
Proof.
  unfold iteration.
  destruct (eth_blockNumber l) as [hex|e]; [|apply checkpointLe_refl].
  set (C := big.SetBytes (common.FromHex hex)).
  destruct (readLastBlock d C + 1 <=? C) eqn:Hle; [|apply checkpointLe_refl].
  apply Z.leb_le in Hle.
  match goal with |- context [thenCheckpoint ?r _] => set (r3 := r) end.
  assert (Hchain : ChainBucket (db r3) = ChainBucket d).
  { subst r3. now rewrite !thenJobs_chain. }
  unfold thenCheckpoint. destruct (alive r3).
  - simpl db. rewrite checkpoint_put. fold C.
    unfold readLastBlock, bolt.Get in Hle. unfold checkpoint, bolt.Get.
    destruct (ChainBucket d !! lastBlockKey); simpl; [lia|exact I].
  - rewrite (checkpoint_chain _ _ Hchain). apply checkpointLe_refl.
Qed.

Lemma processEvents_checkpoint cfg ls d :
  checkpointLe (checkpoint d) (checkpoint (db (processEvents cfg ls d))).
Proof.
  revert d. induction ls as [|l ls IH]; intros d; simpl.
  - apply checkpointLe_refl.
  - pose proof (iteration_checkpoint cfg l d) as Hit.
    destruct (alive (iteration cfg l d)); [|exact Hit].
    simpl. eapply checkpointLe_trans; [exact Hit|apply IH].
Qed.

Lemma processEvents_app cfg ls1 ls2 d :
  db (processEvents cfg (ls1 ++ ls2) d)
  = if alive (processEvents cfg ls1 d)
    then db (processEvents cfg ls2 (db (processEvents cfg ls1 d)))
    else db (processEvents cfg ls1 d).
Proof.
  revert d. induction ls1 as [|l ls1 IH]; intros d; simpl.
  - reflexivity.
  - destruct (alive (iteration cfg l d)) eqn:A; simpl.
    + apply IH.
    + now rewrite A.
Qed.

End IterationFacts.

Section IterationClaims.
Context `{JSON}.
Import Events.

(** C1. In an iteration that reads the height C and finds checkpoint + 1 <=
    C, on a ledger whose logs carry their arguments, the checkpoint stored
    at the end is C whatever the three log queries answered; all three
    queries are issued, and the job bucket holds what each kind
    contributes in turn, a failed query contributing nothing and stopping
    neither the other kinds nor the checkpoint write. *)
Theorem C1_checkpoint_written_whatever_the_queries
        (cfg : Config) (l : Ledger) (d : DB) (hex : string) :
  eth_blockNumber l = inl hex ->
  readLastBlock d (big.SetBytes (common.FromHex hex)) + 1
    <= big.SetBytes (common.FromHex hex) ->
  wellFormed l ->
  let C := big.SetBytes (common.FromHex hex) in
  let q := query cfg (readLastBlock d C + 1) C in
  let r := iteration cfg l d in
  alive r = true /\
  checkpoint (db r) = Some C /\
  queriesOf (trace r) = [q jobCreatedID; q jobFundedID; q jobCompletedID] /\
  JobBucket (db r)
  = merged onCompletedLog (FilterLogs l (q jobCompletedID))
      (merged onFundedLog (FilterLogs l (q jobFundedID))
         (merged onCreatedLog (FilterLogs l (q jobCreatedID)) (JobBucket d))).
Proof.
  intros Hhex Hle WF C q r.
  destruct (iteration_scans cfg l d hex Hhex Hle WF) as (A & _ & K & Q & J).
  repeat split; assumption.
Qed.

(** C3. The persisted checkpoint never decreases: one iteration leaves it
    at least where it was, whatever the height read and whatever the
    queries answer, and so does every further run of iterations after any
    run of iterations. *)
Theorem C3_checkpoint_never_decreases
        (cfg : Config) (l : Ledger) (ls1 ls2 : list Ledger) (d : DB) :
  checkpointLe (checkpoint d) (checkpoint (db (iteration cfg l d))) /\
  checkpointLe (checkpoint (db (processEvents cfg ls1 d)))
               (checkpoint (db (processEvents cfg (ls1 ++ ls2) d))).
Proof.
  split.
  - apply iteration_checkpoint.
  - rewrite processEvents_app.
    destruct (alive (processEvents cfg ls1 d)).
    + apply processEvents_checkpoint.
    + apply checkpointLe_refl.
Qed.

(** C9, as amended. On the first iteration, with no checkpoint stored and
    the height read as 100, the checkpoint is taken to be 99, the three log
    queries are issued over the range from block 100 to block 100, and the
    checkpoint stored at the end is 100. *)
Theorem C9_first_iteration_scans_block_100 (cfg : Config) (l : Ledger) (d : DB) :
  eth_blockNumber l = inl "0x64"%string ->
  ChainBucket d !! lastBlockKey = None ->
  wellFormed l ->
  let r := iteration cfg l d in
  readLastBlock d 100 = 99 /\
  alive r = true /\
  checkpoint (db r) = Some 100 /\
  queriesOf (trace r)
  = [query cfg 100 100 jobCreatedID; query cfg 100 100 jobFundedID;
     query cfg 100 100 jobCompletedID].
Proof.
  intros Hhex Hnone WF r.
  assert (Hlast : readLastBlock d 100 = 99).
  { unfold readLastBlock, bolt.Get. now rewrite Hnone. }
  assert (Hle : readLastBlock d (big.SetBytes (common.FromHex "0x64")) + 1
                <= big.SetBytes (common.FromHex "0x64")).
  { change (big.SetBytes (common.FromHex "0x64")) with 100. rewrite Hlast. lia. }
  destruct (iteration_scans cfg l d "0x64" Hhex Hle WF) as (A & _ & K & Q & _).
  change (big.SetBytes (common.FromHex "0x64")) with 100 in K, Q.
  rewrite Hlast in Q. simpl in Q.
  repeat split; assumption.
Qed.

End IterationClaims.

Lemma ledger55_wellFormed : Events.wellFormed Sample.ledger55.
Proof.
  intros q id logs Ht. unfold Sample.ledger55. simpl. rewrite Ht.
  destruct id; intros [= <-]; repeat constructor.
Qed.

Lemma ledger100_wellFormed : Events.wellFormed Sample.ledger100.
Proof. intros q id logs _. simpl. intros [= <-]. constructor. Qed.

(** Checkpoint 50, height 55, the JobFunded query failing: the checkpoint
    becomes 55 and the JobCreated log is merged. *)
Lemma C1_witness :
  Events.checkpoint (Events.db (Events.iteration (H := Sample.json)
                                  Sample.cfg Sample.ledger55 Sample.db50))
  = Some 55 /\
  Events.storedJob (H := Sample.json)
    (JobBucket (Events.db (Events.iteration (H := Sample.json)
                             Sample.cfg Sample.ledger55 Sample.db50)))
    (Sample.addr xaa)
  = Some (Sample.jobAA jobPendingState).
Proof.
  destruct (C1_checkpoint_written_whatever_the_queries (H := Sample.json)
              Sample.cfg Sample.ledger55 Sample.db50 "0x37" eq_refl)
    as (_ & K & _ & J).
  - vm_compute. intros E. discriminate E.
  - exact ledger55_wellFormed.
  - split; [exact K|]. rewrite J. vm_compute. reflexivity.
Defined.

(** C9 as stated fails: with no checkpoint and height 100, the iteration
    does issue the three log queries, over the range [100, 100]. *)
Lemma C9_counterexample :
  Events.checkpoint Sample.emptyDB = None /\
  Events.checkpoint (Events.db (Events.iteration (H := Sample.json)
                                  Sample.cfg Sample.ledger100 Sample.emptyDB))
  = Some 100 /\
  Events.queriesOf (Events.trace (Events.iteration (H := Sample.json)
                                    Sample.cfg Sample.ledger100 Sample.emptyDB))
  = [mkQuery 100 100 [Sample.addr xc0] [[jobCreatedID]];
     mkQuery 100 100 [Sample.addr xc0] [[jobFundedID]];
     mkQuery 100 100 [Sample.addr xc0] [[jobCompletedID]]].
Proof. vm_compute. repeat split. Qed.

Lemma C9_witness :
  Events.checkpoint (Events.db (Events.iteration (H := Sample.json)
                                  Sample.cfg Sample.ledger100 Sample.emptyDB))
  = Some 100.
Proof.
  apply (C9_first_iteration_scans_block_100 (H := Sample.json)
           Sample.cfg Sample.ledger100 Sample.emptyDB eq_refl).
  - vm_compute. reflexivity.
  - exact ledger100_wellFormed.
Defined.

(** ** processJobCompletions *)

Section CompletionClaims.
Context `{Completions.SignatureParser}.
Import Completions.

Lemma forget_only (h : bytes) : forget h [h] = [].
Proof.
  unfold forget. cbn [List.filter].
  destruct (bool_decide (h = h)) eqn:E; [reflexivity|].
  apply bool_decide_eq_false in E. congruence.
Qed.

Lemma step_awaited p c w :
  fold_left inFlightAfter (snd (step p c w)) (awaited w) = awaited (fst (step p c w)).
Proof.
  unfold step, awaited. destruct w as [q [|txn]]; simpl.
  - destruct q as [|j rest]; simpl; [reflexivity|].
    destruct (parseSignature (jobSignatureBytes j)) as [sig [e|]];
      destruct (CompleteJob c _ _ sig) as [txn|e']; reflexivity.
  - destruct (TransactionByHash c (Hash txn)) as [tx [|]|e]; simpl;
      try reflexivity; apply forget_only.
Qed.

Lemma react_awaited p i w :
  fold_left inFlightAfter (snd (react p i w)) (awaited w) = awaited (fst (react p i w)).
Proof. destruct i as [j|c]; [reflexivity|apply step_awaited]. Qed.

Lemma processJobCompletions_awaited p ins w :
  fold_left inFlightAfter (snd (processJobCompletions p ins w)) (awaited w)
  = awaited (fst (processJobCompletions p ins w)).
Proof.
  revert w. induction ins as [|i ins IH]; intros w; simpl.
  - reflexivity.
  - pose proof (react_awaited p i w) as R.
    destruct (react p i w) as [w' t]. simpl in R.
    pose proof (IH w') as R'.
    destruct (processJobCompletions p ins w') as [w'' t']. simpl in *.
    now rewrite fold_left_app, R.
Qed.

(** C2, on the code. When the signature of the dequeued request fails to
    parse, the step logs the failure and then submits the completion
    transaction all the same, with the v, r and s that came back with the
    error. *)
Theorem C2_submits_after_parse_failure
        (p : Processor) (c : Chain) (j : jobInfo) (rest : list jobInfo)
        (sig : Signature) (e : error) :
  parseSignature (jobSignatureBytes j) = (sig, Some e) ->
  exists w' opts res t,
    step p c (mkWorker (j :: rest) Receiving)
    = (w', LogError "error parsing job signature" e
           :: LogDebug "submitting transaction to complete job"
           :: CallCompleteJob opts (common.BytesToAddress (jobAddressBytes j)) sig res
           :: t)
    /\ res = CompleteJob c opts (common.BytesToAddress (jobAddressBytes j)) sig
    /\ queue w' = rest.
Proof.
  intros E. unfold step. simpl. rewrite E.
  destruct (CompleteJob c _ _ sig) as [txn|e'] eqn:R;
    repeat eexists; rewrite R; reflexivity.
Qed.

(** C6, as amended. However requests are enqueued and whatever the node
    answers, at most one submitted transaction is in flight, where a
    transaction stays in flight until a status call comes back with the
    pending flag false (as a call that fails does); the transaction in
    flight is the one the routine is polling, and while the status call
    reports it pending the routine sleeps one second and stays where it
    is, neither receiving nor submitting. *)
Theorem C6_one_transaction_in_flight
        (p : Processor) (ins : list input) (q : list jobInfo) :
  let w := mkWorker q Receiving in
  inFlight (snd (processJobCompletions p ins w))
  = awaited (fst (processJobCompletions p ins w)) /\
  (length (inFlight (snd (processJobCompletions p ins w))) <= 1)%nat /\
  (forall c w' txn,
     position w' = Polling txn ->
     snd (fst (returned (TransactionByHash c (Hash txn)))) = true ->
     step p c w'
     = (w', [CallTransactionByHash (Hash txn) (TransactionByHash c (Hash txn));
             Sleep (Second * 1)])).
Proof.
  intros w.
  assert (E : inFlight (snd (processJobCompletions p ins w))
              = awaited (fst (processJobCompletions p ins w))).
  { exact (processJobCompletions_awaited p ins w). }
  split; [exact E|split].
  - rewrite E. unfold awaited.
    destruct (position (fst (processJobCompletions p ins w))); simpl; lia.
  - intros c [q' pos] txn Hpos Hp. simpl in Hpos. subst pos.
    unfold step. simpl.
    destruct (TransactionByHash c (Hash txn)) as [tx [|]|e]; simpl in *;
      try discriminate; reflexivity.
Qed.

(** C10. When the status call fails while the routine waits on a
    submitted transaction, the error is dropped, the flag read is false,
    and the routine leaves the wait without sleeping; its next step
    receives the next queued request and submits it. *)
Theorem C10_failed_status_call_ends_the_wait
        (p : Processor) (c c' : Chain) (w : Worker) (txn : Transaction)
        (e : error) (j : jobInfo) (rest : list jobInfo) :
  position w = Polling txn ->
  TransactionByHash c (Hash txn) = LookupFailed e ->
  queue w = j :: rest ->
  snd (fst (returned (TransactionByHash c (Hash txn)))) = false /\
  step p c w
  = (mkWorker (j :: rest) Receiving, [CallTransactionByHash (Hash txn) (LookupFailed e)]) /\
  exists opts sig res,
    In (CallCompleteJob opts (common.BytesToAddress (jobAddressBytes j)) sig res)
       (snd (step p c' (fst (step p c w)))) /\
    queue (fst (step p c' (fst (step p c w)))) = rest.
Proof.
  intros Hpos Hfail Hq. destruct w as [q pos]. simpl in *. subst q pos.
  assert (S1 : step p c (mkWorker (j :: rest) (Polling txn))
               = (mkWorker (j :: rest) Receiving,
                  [CallTransactionByHash (Hash txn) (LookupFailed e)])).
  { unfold step. simpl. now rewrite Hfail. }
  split; [now rewrite Hfail|]. split; [exact S1|].
  rewrite S1. unfold step. simpl.
  destruct (parseSignature (jobSignatureBytes j)) as [sig err].
  destruct (CompleteJob c' _ _ sig) as [tx|e'] eqn:R;
    do 3 eexists; (split; [|reflexivity]);
    destruct err; simpl; rewrite ?R; eauto 6.
Qed.

End CompletionClaims.

(** A two-byte signature: the failure is logged and the transaction is
    submitted with v = 0 and zero r and s. *)
Lemma C2_witness :
  exists w' opts res t,
    Completions.step (H := Sample.parser) Sample.proc Sample.flaky
      (Completions.mkWorker [Sample.malformed] Completions.Receiving)
    = (w', LogError "error parsing job signature" "job signature incorrect length"
           :: LogDebug "submitting transaction to complete job"
           :: CallCompleteJob opts
                (common.BytesToAddress (Completions.jobAddressBytes Sample.malformed))
                (mkSignature 0 (repeat x00 32) (repeat x00 32)) res
           :: t)
    /\ res = Completions.CompleteJob Sample.flaky opts
               (common.BytesToAddress (Completions.jobAddressBytes Sample.malformed))
               (mkSignature 0 (repeat x00 32) (repeat x00 32))
    /\ Completions.queue w' = [].
Proof.
  apply (C2_submits_after_parse_failure (H := Sample.parser)
           Sample.proc Sample.flaky Sample.malformed []).
  vm_compute. reflexivity.
Defined.

(** C6 as stated fails: the first transaction is submitted, its status
    call fails, and the second is submitted while nothing has reported the
    first as no longer pending. *)
Lemma C6_counterexample :
  snd (Completions.processJobCompletions (H := Sample.parser) Sample.proc
         [Completions.Tick Sample.flaky; Completions.Tick Sample.flaky;
          Completions.Tick Sample.flaky]
         (Completions.mkWorker [Sample.requestAA; Sample.requestBB]
                               Completions.Receiving))
  = [LogDebug "submitting transaction to complete job";
     CallCompleteJob (mkOpts (Sample.addr xc1) [x01] 1000000) (Sample.addr xaa)
       (mkSignature 28 (repeat x01 32) (repeat x01 32))
       (inl (mkTransaction (Sample.addr xaa)));
     CallTransactionByHash (Sample.addr xaa) (LookupFailed "not found");
     LogDebug "submitting transaction to complete job";
     CallCompleteJob (mkOpts (Sample.addr xc1) [x01] 1000000) (Sample.addr xbb)
       (mkSignature 29 (repeat x02 32) (repeat x02 32))
       (inl (mkTransaction (Sample.addr xbb)))] /\
  Completions.unconfirmed
    (snd (Completions.processJobCompletions (H := Sample.parser) Sample.proc
            [Completions.Tick Sample.flaky; Completions.Tick Sample.flaky;
             Completions.Tick Sample.flaky]
            (Completions.mkWorker [Sample.requestAA; Sample.requestBB]
                                  Completions.Receiving)))
  = [Sample.addr xaa; Sample.addr xbb].
Proof. vm_compute. split; reflexivity. Qed.

(** The routine waits on the transaction for 0x..AA, the status call
    fails, and the request for 0x..BB is submitted next. *)
Lemma C10_witness :
  Completions.step (H := Sample.parser) Sample.proc Sample.flaky
    (Completions.mkWorker [Sample.requestBB]
       (Completions.Polling (mkTransaction (Sample.addr xaa))))
  = (Completions.mkWorker [Sample.requestBB] Completions.Receiving,
     [CallTransactionByHash (Sample.addr xaa) (LookupFailed "not found")]).
Proof.
  apply (C10_failed_status_call_ends_the_wait (H := Sample.parser)
           Sample.proc Sample.flaky Sample.flaky
           (Completions.mkWorker [Sample.requestBB]
              (Completions.Polling (mkTransaction (Sample.addr xaa))))
           (mkTransaction (Sample.addr xaa)) "not found" Sample.requestBB []);
    reflexivity.
Defined.

(** * Further properties of the code *)

(** ** processEvents: the loop bodies *)

Section EventExtras.
Context `{JSON}.
Import Events.

Lemma forLogs_quiet
      (body : bolt.Bucket -> Log -> list effect * outcome bolt.Bucket)
      (logs : list Log) (bucket : bolt.Bucket) :
  (forall b lg, queriesOf (fst (body b lg)) = []) ->
  queriesOf (fst (forLogs body logs bucket)) = [].
Proof.
  intros Q. revert bucket. induction logs as [|lg logs IH]; intros bucket; simpl.
  - reflexivity.
  - pose proof (Q bucket lg) as Qh.
    destruct (body bucket lg) as [t [b'|msg]]; simpl in *.
    + specialize (IH b'). destruct (forLogs body logs b') as [t' r]. simpl in *.
      now rewrite queriesOf_app, Qh, IH.
    + exact Qh.
Qed.

Lemma thenJobs_panics r tx t msg :
  alive r = true ->
  tx (JobBucket (db r)) = (t, Panic msg) ->
  thenJobs r tx = mkRun (db r) (trace r ++ t) false.
Proof. unfold thenJobs. now intros -> ->. Qed.

Lemma thenJobs_dead r tx : alive r = false -> thenJobs r tx = r.
Proof. unfold thenJobs. now intros ->. Qed.

Lemma forLogs_created_panics (logs : list Log) (bucket : bolt.Bucket) :
  Exists (fun lg => (length (Data lg) < 64)%nat) logs ->
  exists t msg, forLogs onCreatedLog logs bucket = (t, Panic msg).
Proof.
  intros Hex. revert bucket.
  induction logs as [|lg logs IH]; intros bucket; [inversion Hex|]. simpl.
  destruct (onCreatedLog bucket lg) as [t [b'|msg]] eqn:E; [|eauto].
  assert (Hlen : (64 <= length (Data lg))%nat).
  { apply (onCreatedLog_returns bucket lg b'). now rewrite E. }
  inversion Hex as [? ? Hshort|? ? Hrest]; subst; [lia|].
  destruct (IH Hrest b') as (t' & msg & E'). rewrite E'. eauto.
Qed.

(** X1. A JobCompleted log that carries its argument removes the record
    under the job address and nothing else; when there was no record the
    bucket is left exactly as it was. *)
Theorem completed_log_deletes_record (bucket : bolt.Bucket) (lg : Log) :
  (32 <= length (Data lg))%nat ->
  exists b1,
    onCompletedLog bucket lg
    = ([LogDebug "received JobCompleted event; deleting from db"], Return b1) /\
    b1 !! jobAddressOf lg = None /\
    (forall k, k <> jobAddressOf lg -> b1 !! k = bucket !! k) /\
    (bucket !! jobAddressOf lg = None -> b1 = bucket).
Proof.
  intros Hlen. exists (delete (jobAddressOf lg) bucket).
  rewrite onCompletedLog_merge by exact Hlen.
  unfold mergeCompleted, bolt.Delete. simpl. repeat split.
  - apply lookup_delete_eq.
  - intros k Hk. now apply lookup_delete_ne.
  - intros Hnone. now apply delete_id.
Qed.

Lemma forLogs_completed (logs : list Log) (bucket : bolt.Bucket) :
  Forall (fun lg => (32 <= length (Data lg))%nat) logs ->
  exists t b1,
    forLogs onCompletedLog logs bucket = (t, Return b1) /\
    (forall lg, In lg logs -> b1 !! jobAddressOf lg = None) /\
    (forall k, bucket !! k = None -> b1 !! k = None).
Proof.
  intros Hall. revert bucket.
  induction Hall as [|lg logs Hlg _ IH]; intros bucket; simpl.
  - exists [], bucket. repeat split; [intros lg []|tauto].
  - rewrite onCompletedLog_merge by exact Hlg. simpl.
    destruct (IH (bolt.Delete bucket (jobAddressOf lg))) as (t & b1 & E & Hin & Hnone).
    rewrite E. eexists _, b1. split; [reflexivity|]. split.
    + intros lg' [<-|Hlg']; [|now apply Hin].
      apply Hnone. apply lookup_delete_eq.
    + intros k Hk. apply Hnone. unfold bolt.Delete.
      destruct (decide (jobAddressOf lg = k)) as [<-|Hne].
      * apply lookup_delete_eq.
      * now rewrite lookup_delete_ne.
Qed.

(** X2. The kinds are merged Created, Funded, Completed: in an iteration
    that scans, a job named by a JobCompleted log of the range has no
    record at the end, whatever JobCreated and JobFunded logs the same
    range holds for it. *)
Theorem completed_job_absent_after_iteration
        (cfg : Config) (l : Ledger) (d : DB) (hex : string)
        (logs : list Log) (lg : Log) :
  eth_blockNumber l = inl hex ->
  readLastBlock d (big.SetBytes (common.FromHex hex)) + 1
    <= big.SetBytes (common.FromHex hex) ->
  wellFormed l ->
  FilterLogs l (query cfg (readLastBlock d (big.SetBytes (common.FromHex hex)) + 1)
                      (big.SetBytes (common.FromHex hex)) jobCompletedID)
  = inl logs ->
  In lg logs ->
  alive (iteration cfg l d) = true /\
  JobBucket (db (iteration cfg l d)) !! jobAddressOf lg = None.
Proof.
  intros Hhex Hle WF Hlogs Hin.
  destruct (iteration_scans cfg l d hex Hhex Hle WF) as (A & _ & _ & _ & J).
  split; [exact A|]. rewrite J, Hlogs. unfold merged.
  assert (Hall : Forall (fun lg => (32 <= length (Data lg))%nat) logs).
  { exact (WF _ jobCompletedID logs (eq_refl : Topics (query cfg _ _ jobCompletedID) = [[jobCompletedID]]) Hlogs). }
  match goal with |- context [forLogs onCompletedLog logs ?b] =>
    destruct (forLogs_completed logs b Hall) as (t & b1 & E & Hgone & _)
  end.
  rewrite E. simpl. now apply Hgone.
Qed.

(** X3. An iteration changes nothing in the store and issues no log query
    when the height cannot be read, or when the stored checkpoint is
    already at or above the height read. *)
Theorem idle_iteration_leaves_store (cfg : Config) (l : Ledger) (d : DB) :
  match eth_blockNumber l with
  | inr _ => True
  | inl hex => exists bs, ChainBucket d !! lastBlockKey = Some bs /\
                          big.SetBytes (common.FromHex hex) <= big.SetBytes bs
  end ->
  db (iteration cfg l d) = d /\
  alive (iteration cfg l d) = true /\
  queriesOf (trace (iteration cfg l d)) = [].
Proof.
  unfold iteration. destruct (eth_blockNumber l) as [hex|e].
  - intros (bs & Hbs & Hle). unfold readLastBlock, bolt.Get. rewrite Hbs.
    destruct (big.SetBytes bs + 1 <=? big.SetBytes (common.FromHex hex)) eqn:E.
    + apply Z.leb_le in E. lia.
    + repeat split.
  - intros _. repeat split.
Qed.

(** X4. A JobCreated log with fewer than 64 bytes of data makes the
    transaction panic: the routine ends, the store is exactly as before
    the iteration (the writes for earlier logs of the batch are rolled
    back and the checkpoint is not written) and the two other queries are
    never issued. *)
Theorem short_created_log_ends_routine
        (cfg : Config) (l : Ledger) (d : DB) (hex : string) (logs : list Log) :
  eth_blockNumber l = inl hex ->
  readLastBlock d (big.SetBytes (common.FromHex hex)) + 1
    <= big.SetBytes (common.FromHex hex) ->
  FilterLogs l (query cfg (readLastBlock d (big.SetBytes (common.FromHex hex)) + 1)
                      (big.SetBytes (common.FromHex hex)) jobCreatedID)
  = inl logs ->
  Exists (fun lg => (length (Data lg) < 64)%nat) logs ->
  alive (iteration cfg l d) = false /\
  db (iteration cfg l d) = d /\
  queriesOf (trace (iteration cfg l d))
  = [query cfg (readLastBlock d (big.SetBytes (common.FromHex hex)) + 1)
           (big.SetBytes (common.FromHex hex)) jobCreatedID].
Proof.
  intros Hhex Hle Hlogs Hex. unfold iteration. rewrite Hhex.
  apply Z.leb_le in Hle. rewrite Hle.
  set (C := big.SetBytes (common.FromHex hex)) in *.
  set (from := readLastBlock d C + 1) in *. cbv zeta.
  assert (S1 : exists t msg,
             scan cfg l from C jobCreatedID onCreatedLog
                  "error getting job created logs" (JobBucket d)
             = (CallFilterLogs (query cfg from C jobCreatedID) :: t, Panic msg)
             /\ queriesOf t = []).
  { unfold scan. rewrite Hlogs.
    destruct (forLogs_created_panics logs (JobBucket d) Hex) as (t & msg & E).
    pose proof (forLogs_quiet onCreatedLog logs (JobBucket d) onCreatedLog_quiet) as Q.
    rewrite E in *. simpl in Q.
    destruct logs as [|lg0 logs']; [inversion Hex|]. simpl.
    exists t, msg. split; [reflexivity|exact Q]. }
  destruct S1 as (t & msg & S1 & Q).
  match goal with
  | |- context [thenJobs ?r0 (scan cfg l from C jobCreatedID onCreatedLog ?m)] =>
      rewrite (thenJobs_panics r0 (scan cfg l from C jobCreatedID onCreatedLog m)
                 _ msg eq_refl S1)
  end.
  rewrite !thenJobs_dead by reflexivity.
  unfold thenCheckpoint. simpl.
  repeat split. now rewrite Q.
Qed.

(** X5. Successive scans are contiguous: after an iteration that scanned
    up to height C1, an iteration that reads a greater height C2 queries
    exactly the range from C1 + 1 to C2, so that no block is scanned twice
    and none is skipped. *)
Theorem successive_scans_are_contiguous
        (cfg : Config) (l1 l2 : Ledger) (d : DB) (hex1 hex2 : string) :
  eth_blockNumber l1 = inl hex1 ->
  readLastBlock d (big.SetBytes (common.FromHex hex1)) + 1
    <= big.SetBytes (common.FromHex hex1) ->
  wellFormed l1 ->
  eth_blockNumber l2 = inl hex2 ->
  big.SetBytes (common.FromHex hex1) + 1 <= big.SetBytes (common.FromHex hex2) ->
  wellFormed l2 ->
  let C1 := big.SetBytes (common.FromHex hex1) in
  let C2 := big.SetBytes (common.FromHex hex2) in
  let r2 := iteration cfg l2 (db (iteration cfg l1 d)) in
  queriesOf (trace r2)
  = [query cfg (C1 + 1) C2 jobCreatedID; query cfg (C1 + 1) C2 jobFundedID;
     query cfg (C1 + 1) C2 jobCompletedID] /\
  checkpoint (db r2) = Some C2.
Proof.
  intros Hhex1 Hle1 WF1 Hhex2 Hle2 WF2 C1 C2 r2.
  destruct (iteration_scans cfg l1 d hex1 Hhex1 Hle1 WF1) as (_ & Hc & K1 & _ & _).
  assert (Hlast : readLastBlock (db (iteration cfg l1 d)) C2 = C1).
  { unfold readLastBlock, bolt.Get. rewrite Hc. now rewrite lookup_insert_eq. }
  assert (Hle : readLastBlock (db (iteration cfg l1 d))
                  (big.SetBytes (common.FromHex hex2)) + 1
                <= big.SetBytes (common.FromHex hex2)).
  { fold C2. rewrite Hlast. exact Hle2. }
  destruct (iteration_scans cfg l2 _ hex2 Hhex2 Hle WF2) as (_ & _ & K2 & Q2 & _).
  fold C2 in Q2, K2. rewrite Hlast in Q2. split; assumption.
Qed.

(** X6. Merging a JobCreated or JobFunded log never sets, clears or
    changes a completion request: the completion flag and the signature of
    the record under the job address read the same after the merge as
    before it. *)
Theorem merges_keep_completion_request
        (bucket b1 : bolt.Bucket) (lg : Log) :
  roundtrip ->
  snd (onCreatedLog bucket lg) = Return b1 \/ snd (onFundedLog bucket lg) = Return b1 ->
  Completed (readJob (bolt.Get b1 (jobAddressOf lg)))
  = Completed (readJob (bolt.Get bucket (jobAddressOf lg))) /\
  JobSignature (readJob (bolt.Get b1 (jobAddressOf lg)))
  = JobSignature (readJob (bolt.Get bucket (jobAddressOf lg))).
Proof.
  intros RT [E|E].
  - pose proof (onCreatedLog_returns _ _ _ E) as Hlen.
    rewrite onCreatedLog_merge in E by exact Hlen. simpl in E.
    injection E as <-. unfold mergeCreated.
    destruct (Marshal (createdJob bucket (jobAddressOf lg) (consumerOf lg)))
      as [bs|e] eqn:M.
    + rewrite (writeJob_encoded _ _ _ _ M). simpl.
      unfold bolt.Get at 1 3. rewrite lookup_insert_eq. unfold readJob at 1 3.
      rewrite (RT _ _ M). split; reflexivity.
    + rewrite (writeJob_failed _ _ _ _ M). split; reflexivity.
  - pose proof (onFundedLog_returns _ _ _ E) as Hlen.
    rewrite onFundedLog_merge in E by exact Hlen. simpl in E.
    injection E as <-. unfold mergeFunded.
    destruct (Marshal (fundedJob bucket (jobAddressOf lg))) as [bs|e] eqn:M.
    + rewrite (writeJob_encoded _ _ _ _ M). simpl.
      unfold bolt.Get at 1 3. rewrite lookup_insert_eq. unfold readJob at 1 3.
      rewrite (RT _ _ M). split; reflexivity.
    + rewrite (writeJob_failed _ _ _ _ M). split; reflexivity.
Qed.

End EventExtras.

Section EventExtras2.
Context `{JSON}.
Import Events.


Lemma writeJob_frame bucket a job k :
  k <> a -> snd (writeJob bucket a job) !! k = bucket !! k.
Proof.
  intros Hk. unfold writeJob, bolt.Put. destruct (Marshal job); simpl.
  - now rewrite lookup_insert_ne.
  - reflexivity.
Qed.

Lemma onCreatedLog_frame bucket lg b1 k :
  snd (onCreatedLog bucket lg) = Return b1 -> jobAddressOf lg <> k ->
  b1 !! k = bucket !! k.
Proof.
  intros E Hk. pose proof (onCreatedLog_returns _ _ _ E) as Hlen.
  rewrite onCreatedLog_merge in E by exact Hlen. simpl in E. injection E as <-.
  unfold mergeCreated.
  pose proof (writeJob_frame bucket (jobAddressOf lg)
                (createdJob bucket (jobAddressOf lg) (consumerOf lg)) k) as F.
  destruct (writeJob _ _ _). simpl in *. apply F. congruence.
Qed.

Lemma onFundedLog_frame bucket lg b1 k :
  snd (onFundedLog bucket lg) = Return b1 -> jobAddressOf lg <> k ->
  b1 !! k = bucket !! k.
Proof.
  intros E Hk. pose proof (onFundedLog_returns _ _ _ E) as Hlen.
  rewrite onFundedLog_merge in E by exact Hlen. simpl in E. injection E as <-.
  unfold mergeFunded.
  pose proof (writeJob_frame bucket (jobAddressOf lg)
                (fundedJob bucket (jobAddressOf lg)) k) as F.
  destruct (writeJob _ _ _). simpl in *. apply F. congruence.
Qed.

Lemma onCompletedLog_frame bucket lg b1 k :
  snd (onCompletedLog bucket lg) = Return b1 -> jobAddressOf lg <> k ->
  b1 !! k = bucket !! k.
Proof.
  unfold onCompletedLog.
  destruct (slice (Data lg) 0 32) as [a|] eqn:S; [|discriminate].
  pose proof (slice_returns _ _ _ _ S) as Hlen.
  rewrite slice_in_range in S by lia. injection S as <-. simpl.
  intros [= <-] Hk. unfold bolt.Delete. now apply lookup_delete_ne.
Qed.

Lemma forLogs_frame
      (body : bolt.Bucket -> Log -> list effect * outcome bolt.Bucket)
      (k : bytes) :
  (forall b lg b', snd (body b lg) = Return b' -> jobAddressOf lg <> k ->
                   b' !! k = b !! k) ->
  forall logs bucket b1,
    snd (forLogs body logs bucket) = Return b1 ->
    Forall (fun lg => jobAddressOf lg <> k) logs ->
    b1 !! k = bucket !! k.
Proof.
  intros F logs. induction logs as [|lg logs IH]; intros bucket b1; simpl.
  - now intros [= <-] _.
  - intros E Hall. inversion Hall as [|? ? Hlg Hrest]; subst.
    pose proof (F bucket lg) as Fh.
    destruct (body bucket lg) as [t [b'|msg]]; simpl in *; [|discriminate].
    specialize (IH b' b1).
    destruct (forLogs body logs b') as [t' r]. simpl in *.
    rewrite (IH E Hrest). now apply Fh.
Qed.

(** X8. A batch touches only the addresses its logs name: after the loop
    over the logs of any of the three kinds, the record under every other
    address is as it was. *)
Theorem batch_touches_only_named_addresses
        (logs : list Log) (bucket b1 : bolt.Bucket) (k : bytes) :
  Forall (fun lg => jobAddressOf lg <> k) logs ->
  (snd (forLogs onCreatedLog logs bucket) = Return b1 \/
   snd (forLogs onFundedLog logs bucket) = Return b1 \/
   snd (forLogs onCompletedLog logs bucket) = Return b1) ->
  b1 !! k = bucket !! k.
Proof.
  intros Hall [E|[E|E]].
  - apply (forLogs_frame onCreatedLog k) with (logs := logs); try assumption.
    intros b lg b'. apply onCreatedLog_frame.
  - apply (forLogs_frame onFundedLog k) with (logs := logs); try assumption.
    intros b lg b'. apply onFundedLog_frame.
  - apply (forLogs_frame onCompletedLog k) with (logs := logs); try assumption.
    intros b lg b'. apply onCompletedLog_frame.
Qed.

(** X9. A JobCreated log followed by a JobFunded log for the same address,
    as in an iteration whose range holds both, leaves the record Funded
    with the consumer of the JobCreated log, and with the signature and the
    completion flag the address had before. *)
Theorem created_then_funded
        (bucket : bolt.Bucket) (lgC lgF : Log) (bs1 bs2 : bytes) :
  roundtrip ->
  (64 <= length (Data lgC))%nat ->
  (32 <= length (Data lgF))%nat ->
  jobAddressOf lgF = jobAddressOf lgC ->
  Marshal (createdJob bucket (jobAddressOf lgC) (consumerOf lgC)) = inl bs1 ->
  Marshal (setJobState jobFundedState
             (createdJob bucket (jobAddressOf lgC) (consumerOf lgC))) = inl bs2 ->
  exists b1 b2,
    snd (onCreatedLog bucket lgC) = Return b1 /\
    snd (onFundedLog b1 lgF) = Return b2 /\
    storedJob b2 (jobAddressOf lgC)
    = Some (mkJob (jobAddressOf lgC) (consumerOf lgC)
                  (JobSignature (readJob (bolt.Get bucket (jobAddressOf lgC))))
                  jobFundedState
                  (Completed (readJob (bolt.Get bucket (jobAddressOf lgC))))).
Proof.
  intros RT HlenC HlenF Ha M1 M2.
  set (a := jobAddressOf lgC) in *. set (c := consumerOf lgC) in *.
  exists (<[a := bs1]> bucket), (<[a := bs2]> (<[a := bs1]> bucket)).
  assert (J : fundedJob (<[a := bs1]> bucket) a
              = setJobState jobFundedState (createdJob bucket a c)).
  { unfold fundedJob, bolt.Get. rewrite lookup_insert_eq. unfold readJob at 1.
    rewrite (RT _ _ M1). simpl. reflexivity. }
  split; [|split].
  - rewrite onCreatedLog_merge by exact HlenC. fold a. fold c.
    unfold mergeCreated. now rewrite (writeJob_encoded _ _ _ _ M1).
  - rewrite onFundedLog_merge by exact HlenF. rewrite Ha.
    unfold mergeFunded. rewrite J. now rewrite (writeJob_encoded _ _ _ _ M2).
  - rewrite (storedJob_written RT _ _ _ _ M2). reflexivity.
Qed.

End EventExtras2.

Lemma ledger60_wellFormed : Events.wellFormed Sample.ledger60.
Proof.
  intros q id logs Ht. unfold Sample.ledger60. simpl. rewrite Ht.
  destruct id; intros [= <-]; repeat constructor.
Qed.

Lemma db50_below_55 :
  Events.readLastBlock Sample.db50 (big.SetBytes (common.FromHex "0x37")) + 1
  <= big.SetBytes (common.FromHex "0x37").
Proof. vm_compute. intros E. discriminate E. Qed.

Lemma db50_below_60 :
  Events.readLastBlock Sample.db50 (big.SetBytes (common.FromHex "0x3c")) + 1
  <= big.SetBytes (common.FromHex "0x3c").
Proof. vm_compute. intros E. discriminate E. Qed.

Lemma completed_log_deletes_record_witness :
  exists b1,
    Events.onCompletedLog (Sample.bucketAA jobFundedState) Sample.completedAA
    = ([LogDebug "received JobCompleted event; deleting from db"], Return b1) /\
    b1 !! Events.jobAddressOf Sample.completedAA = None /\
    (forall k, k <> Events.jobAddressOf Sample.completedAA ->
               b1 !! k = Sample.bucketAA jobFundedState !! k) /\
    (Sample.bucketAA jobFundedState !! Events.jobAddressOf Sample.completedAA = None ->
     b1 = Sample.bucketAA jobFundedState).
Proof.
  apply (completed_log_deletes_record (Sample.bucketAA jobFundedState)
           Sample.completedAA).
  vm_compute. lia.
Defined.

(** Height 60 over checkpoint 50, with a JobFunded and a JobCompleted log
    for 0x..AA in the range: no record for 0x..AA afterwards. *)
Lemma completed_job_absent_after_iteration_witness :
  Events.alive (Events.iteration (H := Sample.json) Sample.cfg Sample.ledger60
                                 Sample.db50) = true /\
  JobBucket (Events.db (Events.iteration (H := Sample.json) Sample.cfg
                          Sample.ledger60 Sample.db50))
    !! Events.jobAddressOf Sample.completedAA = None.
Proof.
  apply (completed_job_absent_after_iteration (H := Sample.json)
           Sample.cfg Sample.ledger60 Sample.db50 "0x3c"
           [Sample.completedAA] Sample.completedAA eq_refl
           db50_below_60 ledger60_wellFormed).
  - reflexivity.
  - left. reflexivity.
Defined.

(** Height 50 read over checkpoint 50. *)
Lemma idle_iteration_leaves_store_witness :
  Events.db (Events.iteration (H := Sample.json) Sample.cfg Sample.ledger50 Sample.db50)
  = Sample.db50 /\
  Events.alive (Events.iteration (H := Sample.json) Sample.cfg Sample.ledger50
                                 Sample.db50) = true /\
  Events.queriesOf (Events.trace (Events.iteration (H := Sample.json) Sample.cfg
                                    Sample.ledger50 Sample.db50)) = [].
Proof.
  apply (idle_iteration_leaves_store (H := Sample.json)
           Sample.cfg Sample.ledger50 Sample.db50).
  exists [x32]. split.
  - vm_compute. reflexivity.
  - vm_compute. intros E. discriminate E.
Defined.

(** A batch of a whole JobCreated log and one cut to 32 bytes. *)
Lemma short_created_log_ends_routine_witness :
  Events.alive (Events.iteration (H := Sample.json) Sample.cfg
                  Sample.ledgerTruncated Sample.db50) = false /\
  Events.db (Events.iteration (H := Sample.json) Sample.cfg
               Sample.ledgerTruncated Sample.db50) = Sample.db50 /\
  Events.queriesOf (Events.trace (Events.iteration (H := Sample.json) Sample.cfg
                                    Sample.ledgerTruncated Sample.db50))
  = [Events.query Sample.cfg
       (Events.readLastBlock Sample.db50 (big.SetBytes (common.FromHex "0x37")) + 1)
       (big.SetBytes (common.FromHex "0x37")) jobCreatedID].
Proof.
  apply (short_created_log_ends_routine (H := Sample.json)
           Sample.cfg Sample.ledgerTruncated Sample.db50 "0x37"
           [Sample.createdAA; Sample.truncated] eq_refl db50_below_55).
  - reflexivity.
  - right. left. vm_compute. lia.
Defined.

(** Checkpoint 50, then height 55, then height 60: the second scan is
    over the range from 56 to 60. *)
Lemma successive_scans_are_contiguous_witness :
  Events.queriesOf
    (Events.trace (Events.iteration (H := Sample.json) Sample.cfg Sample.ledger60
                     (Events.db (Events.iteration (H := Sample.json) Sample.cfg
                                   Sample.ledger55 Sample.db50))))
  = [Events.query Sample.cfg 56 60 jobCreatedID;
     Events.query Sample.cfg 56 60 jobFundedID;
     Events.query Sample.cfg 56 60 jobCompletedID] /\
  Events.checkpoint
    (Events.db (Events.iteration (H := Sample.json) Sample.cfg Sample.ledger60
                  (Events.db (Events.iteration (H := Sample.json) Sample.cfg
                                Sample.ledger55 Sample.db50))))
  = Some 60.
Proof.
  apply (successive_scans_are_contiguous (H := Sample.json)
           Sample.cfg Sample.ledger55 Sample.ledger60 Sample.db50 "0x37" "0x3c"
           eq_refl db50_below_55 ledger55_wellFormed eq_refl).
  - vm_compute. intros E. discriminate E.
  - exact ledger60_wellFormed.
Defined.

(** A replayed JobCreated log for 0x..CC, whose record carries a
    completion request. *)
Lemma merges_keep_completion_request_witness :
  Completed (Events.readJob (H := Sample.json)
               (bolt.Get (snd (Events.mergeCreated (H := Sample.json) Sample.bucketCC
                                 (Sample.addr xcc) (Sample.addr xbb)))
                         (Events.jobAddressOf Sample.createdCC)))
  = Completed (Events.readJob (H := Sample.json)
                 (bolt.Get Sample.bucketCC (Events.jobAddressOf Sample.createdCC))) /\
  JobSignature (Events.readJob (H := Sample.json)
                  (bolt.Get (snd (Events.mergeCreated (H := Sample.json) Sample.bucketCC
                                    (Sample.addr xcc) (Sample.addr xbb)))
                            (Events.jobAddressOf Sample.createdCC)))
  = JobSignature (Events.readJob (H := Sample.json)
                    (bolt.Get Sample.bucketCC (Events.jobAddressOf Sample.createdCC))).
Proof.
  apply (merges_keep_completion_request (H := Sample.json) Sample.bucketCC _
           Sample.createdCC sample_roundtrip).
  left. rewrite onCreatedLog_merge by (vm_compute; lia). reflexivity.
Defined.


(** A JobCreated log for 0x..AA leaves the record of 0x..CC alone. *)
Lemma batch_touches_only_named_addresses_witness :
  snd (Events.mergeCreated (H := Sample.json) Sample.bucketCC
         (Sample.addr xaa) (Sample.addr xbb)) !! Sample.addr xcc
  = Sample.bucketCC !! Sample.addr xcc.
Proof.
  apply (batch_touches_only_named_addresses (H := Sample.json)
           [Sample.createdAA] Sample.bucketCC _ (Sample.addr xcc)).
  - constructor; [|constructor]. vm_compute. intros E. discriminate E.
  - left. cbn [Events.forLogs].
    rewrite onCreatedLog_merge by (vm_compute; lia). reflexivity.
Defined.

(** A JobCreated and a JobFunded log for 0x..CC over its stored record. *)
Lemma created_then_funded_witness :
  exists b1 b2,
    snd (Events.onCreatedLog (H := Sample.json) Sample.bucketCC Sample.createdCC)
    = Return b1 /\
    snd (Events.onFundedLog (H := Sample.json) b1 Sample.fundedCC) = Return b2 /\
    Events.storedJob (H := Sample.json) b2 (Events.jobAddressOf Sample.createdCC)
    = Some (mkJob (Events.jobAddressOf Sample.createdCC)
                  (Events.consumerOf Sample.createdCC)
                  (JobSignature (Events.readJob (H := Sample.json)
                     (bolt.Get Sample.bucketCC (Events.jobAddressOf Sample.createdCC))))
                  jobFundedState
                  (Completed (Events.readJob (H := Sample.json)
                     (bolt.Get Sample.bucketCC (Events.jobAddressOf Sample.createdCC))))).
Proof.
  apply (created_then_funded (H := Sample.json) Sample.bucketCC
           Sample.createdCC Sample.fundedCC
           (Sample.encoded (mkJob (Sample.addr xcc) (Sample.addr xbb) [x05; x06]
                                  jobPendingState true))
           (Sample.encoded (mkJob (Sample.addr xcc) (Sample.addr xbb) [x05; x06]
                                  jobFundedState true))
           sample_roundtrip).
  - vm_compute. lia.
  - vm_compute. lia.
  - vm_compute. reflexivity.
  - vm_compute. reflexivity.
  - vm_compute. reflexivity.
Defined.

(** ** processJobCompletions: the queue and the wait loop *)

Section CompletionExtras.
Context `{Completions.SignatureParser}.
Import Completions.

Lemma submittedJobs_app (t t' : list effect) :
  submittedJobs (t ++ t') = submittedJobs t ++ submittedJobs t'.
Proof. apply flat_map_app. Qed.

Lemma step_fifo p c w :
  submittedJobs (snd (step p c w))
    ++ map submissionAddress (queue (fst (step p c w)))
  = map submissionAddress (queue w).
Proof.
  unfold step. destruct w as [q [|txn]]; simpl.
  - destruct q as [|j rest]; simpl; [reflexivity|].
    destruct (parseSignature (jobSignatureBytes j)) as [sig [e|]];
      destruct (CompleteJob c _ _ sig) as [txn|e']; reflexivity.
  - destruct (TransactionByHash c (Hash txn)) as [tx [|]|e]; reflexivity.
Qed.

Lemma react_fifo p i w :
  submittedJobs (snd (react p i w))
    ++ map submissionAddress (queue (fst (react p i w)))
  = map submissionAddress (queue w ++ enqueued [i]).
Proof.
  destruct i as [j|c]; simpl.
  - reflexivity.
  - rewrite app_nil_r. apply step_fifo.
Qed.

Lemma processJobCompletions_fifo p ins w :
  submittedJobs (snd (processJobCompletions p ins w))
    ++ map submissionAddress (queue (fst (processJobCompletions p ins w)))
  = map submissionAddress (queue w ++ enqueued ins).
Proof.
  revert w. induction ins as [|i ins IH]; intros w; simpl.
  - now rewrite app_nil_r.
  - pose proof (react_fifo p i w) as R.
    destruct (react p i w) as [w' t]. simpl in R.
    pose proof (IH w') as R'.
    destruct (processJobCompletions p ins w') as [w'' t']. simpl in *.
    rewrite submittedJobs_app, <- app_assoc, R'.
    rewrite map_app, app_assoc, R.
    rewrite app_nil_r, !map_app. now rewrite <- app_assoc.
Qed.

(** X10. Requests are submitted in arrival order, each at most once and
    none skipped: at any point of any run, the job addresses submitted so
    far followed by those of the requests still queued are the addresses of
    the requests that were queued at the start followed by those enqueued
    since, in that order. *)
Theorem requests_submitted_in_arrival_order
        (p : Processor) (ins : list input) (w : Worker) :
  submittedJobs (snd (processJobCompletions p ins w))
    ++ map submissionAddress (queue (fst (processJobCompletions p ins w)))
  = map submissionAddress (queue w ++ enqueued ins).
Proof. apply processJobCompletions_fifo. Qed.

Lemma step_submitsWith p c w :
  submitsWith (mkOpts (common.BytesToAddress (common.FromHex (address p)))
                      (privateKey p) 1000000)
              (snd (step p c w)).
Proof.
  unfold step, submitsWith. destruct w as [q [|txn]]; simpl.
  - destruct q as [|j rest]; simpl; [constructor|].
    destruct (parseSignature (jobSignatureBytes j)) as [sig [e|]];
      destruct (CompleteJob c _ _ sig) as [txn|e']; simpl;
      repeat constructor.
  - destruct (TransactionByHash c (Hash txn)) as [tx [|]|e]; simpl;
      repeat constructor.
Qed.

(** X11. Every completion transaction of every run is submitted with the
    gas limit 1000000, from the address of the processor and signed with
    its key. *)
Theorem submissions_use_fixed_options
        (p : Processor) (ins : list input) (w : Worker) :
  submitsWith (mkOpts (common.BytesToAddress (common.FromHex (address p)))
                      (privateKey p) 1000000)
              (snd (processJobCompletions p ins w)).
Proof.
  revert w. induction ins as [|i ins IH]; intros w; simpl.
  - constructor.
  - assert (R : submitsWith
                  (mkOpts (common.BytesToAddress (common.FromHex (address p)))
                          (privateKey p) 1000000)
                  (snd (react p i w))).
    { destruct i as [j|c]; [constructor|apply step_submitsWith]. }
    destruct (react p i w) as [w' t]. simpl in R.
    pose proof (IH w') as R'.
    destruct (processJobCompletions p ins w') as [w'' t']. simpl in *.
    unfold submitsWith in *. apply Forall_app. now split.
Qed.

Lemma pollsInFlight_app hs t t' :
  pollsInFlight hs t ->
  pollsInFlight (fold_left inFlightAfter t hs) t' ->
  pollsInFlight hs (t ++ t').
Proof.
  revert hs. induction t as [|e t IH]; intros hs; simpl.
  - tauto.
  - intros [He Ht] Ht'. split; [exact He|]. now apply IH.
Qed.

Lemma step_polls p c w : pollsInFlight (awaited w) (snd (step p c w)).
Proof.
  unfold step, awaited. destruct w as [q [|txn]]; simpl.
  - destruct q as [|j rest]; simpl; [exact I|].
    destruct (parseSignature (jobSignatureBytes j)) as [sig [e|]];
      destruct (CompleteJob c _ _ sig) as [txn|e']; simpl; tauto.
  - destruct (TransactionByHash c (Hash txn)) as [tx [|]|e]; simpl; tauto.
Qed.

Lemma processJobCompletions_polls p ins w :
  pollsInFlight (awaited w) (snd (processJobCompletions p ins w)).
Proof.
  revert w. induction ins as [|i ins IH]; intros w; simpl.
  - exact I.
  - assert (R : pollsInFlight (awaited w) (snd (react p i w))).
    { destruct i as [j|c]; [exact I|apply step_polls]. }
    pose proof (react_awaited p i w) as A.
    destruct (react p i w) as [w' t]. simpl in R, A.
    pose proof (IH w') as R'.
    destruct (processJobCompletions p ins w') as [w'' t']. simpl in *.
    apply pollsInFlight_app; [exact R|]. now rewrite A.
Qed.

(** X12. The routine asks for the status of a transaction only while that
    transaction is the one in flight: never before a submission succeeded,
    never after a submission failed, never for an earlier transaction. *)
Theorem status_calls_ask_about_the_transaction_in_flight
        (p : Processor) (ins : list input) (q : list jobInfo) :
  pollsInFlight [] (snd (processJobCompletions p ins (mkWorker q Receiving))).
Proof. exact (processJobCompletions_polls p ins (mkWorker q Receiving)). Qed.

(** X13. The wait on a submitted transaction: while the node reports it
    pending the routine calls and sleeps one second, turn after turn; the
    first report that is not pending ends the wait, with the queue as it
    was. *)
Theorem wait_lasts_while_pending
        (p : Processor) (cs : list Chain) (c : Chain)
        (q : list jobInfo) (txn : Transaction) :
  Forall (fun c' => reportsPending c' (Hash txn) = true) cs ->
  reportsPending c (Hash txn) = false ->
  processJobCompletions p (map Tick cs ++ [Tick c]) (mkWorker q (Polling txn))
  = (mkWorker q Receiving,
     flat_map (waitTurn (Hash txn)) cs
       ++ [CallTransactionByHash (Hash txn) (TransactionByHash c (Hash txn))]).
Proof.
  intros Hall Hend. induction Hall as [|c' cs Hc' _ IH]; simpl.
  - unfold step. simpl. unfold reportsPending in Hend.
    destruct (returned (TransactionByHash c (Hash txn))) as [[tx pend] err].
    simpl in Hend. subst pend. reflexivity.
  - unfold step at 1. simpl. unfold reportsPending in Hc'.
    destruct (returned (TransactionByHash c' (Hash txn))) as [[tx pend] err].
    simpl in Hc'. subst pend. simpl.
    simpl in IH. rewrite IH. reflexivity.
Qed.

Lemma step_stepsLeft p c w :
  (forall h, reportsPending c h = false) ->
  (stepsLeft (fst (step p c w)) <= stepsLeft w - 1)%nat.
Proof.
  intros Hc. unfold step, stepsLeft. destruct w as [q [|txn]]; simpl.
  - destruct q as [|j rest]; simpl; [lia|].
    destruct (parseSignature (jobSignatureBytes j)) as [sig [e|]];
      destruct (CompleteJob c _ _ sig) as [txn|e']; simpl; lia.
  - specialize (Hc (Hash txn)). unfold reportsPending in Hc.
    destruct (returned (TransactionByHash c (Hash txn))) as [[tx pend] err].
    simpl in Hc. subst pend. simpl. lia.
Qed.

Lemma processJobCompletions_drains p cs w :
  Forall (fun c => forall h, reportsPending c h = false) cs ->
  (stepsLeft w <= length cs)%nat ->
  fst (processJobCompletions p (map Tick cs) w) = mkWorker [] Receiving.
Proof.
  intros Hall. revert w. induction Hall as [|c cs Hc _ IH]; intros w Hw; simpl.
  - unfold stepsLeft in Hw. destruct w as [[|j q] [|txn]]; simpl in *;
      try lia; reflexivity.
  - pose proof (step_stepsLeft p c w Hc) as S.
    destruct (step p c w) as [w' t]. simpl in S.
    assert (Hw' : (stepsLeft w' <= length cs)%nat) by (simpl in Hw; lia).
    specialize (IH w' Hw').
    destruct (processJobCompletions p (map Tick cs) w') as [w'' t'].
    exact IH.
Qed.

Lemma enqueued_ticks (cs : list Chain) : enqueued (map Tick cs) = [].
Proof. induction cs; simpl; auto. Qed.

(** X14. With a node that never reports a transaction pending, two steps
    per queued request empty the queue: every request has been submitted,
    in order, whether its submission succeeded or failed, and the routine
    is back at the channel. *)
Theorem queue_drains_in_two_steps_per_request
        (p : Processor) (cs : list Chain) (q : list jobInfo) :
  Forall (fun c => forall h, reportsPending c h = false) cs ->
  (2 * length q <= length cs)%nat ->
  fst (processJobCompletions p (map Tick cs) (mkWorker q Receiving))
  = mkWorker [] Receiving /\
  submittedJobs (snd (processJobCompletions p (map Tick cs) (mkWorker q Receiving)))
  = map submissionAddress q.
Proof.
  intros Hall Hlen.
  assert (E : fst (processJobCompletions p (map Tick cs) (mkWorker q Receiving))
              = mkWorker [] Receiving).
  { apply processJobCompletions_drains; [exact Hall|].
    unfold stepsLeft. simpl. lia. }
  split; [exact E|].
  pose proof (processJobCompletions_fifo p (map Tick cs) (mkWorker q Receiving)) as F.
  rewrite E, enqueued_ticks in F. simpl in F. now rewrite !app_nil_r in F.
Qed.

End CompletionExtras.

Lemma wait_lasts_while_pending_witness :
  Completions.processJobCompletions (H := Sample.parser) Sample.proc
    (map Completions.Tick [Sample.busy; Sample.busy] ++ [Completions.Tick Sample.steady])
    (Completions.mkWorker [Sample.requestBB]
       (Completions.Polling (mkTransaction (Sample.addr xaa))))
  = (Completions.mkWorker [Sample.requestBB] Completions.Receiving,
     flat_map (waitTurn (Sample.addr xaa)) [Sample.busy; Sample.busy]
       ++ [CallTransactionByHash (Sample.addr xaa)
             (Completions.TransactionByHash Sample.steady (Sample.addr xaa))]).
Proof.
  apply (wait_lasts_while_pending (H := Sample.parser) Sample.proc
           [Sample.busy; Sample.busy] Sample.steady [Sample.requestBB]
           (mkTransaction (Sample.addr xaa))).
  - repeat constructor.
  - reflexivity.
Defined.

Lemma queue_drains_in_two_steps_per_request_witness :
  fst (Completions.processJobCompletions (H := Sample.parser) Sample.proc
         (map Completions.Tick [Sample.steady; Sample.steady; Sample.steady; Sample.steady])
         (Completions.mkWorker [Sample.requestAA; Sample.requestBB]
                               Completions.Receiving))
  = Completions.mkWorker [] Completions.Receiving /\
  submittedJobs
    (snd (Completions.processJobCompletions (H := Sample.parser) Sample.proc
            (map Completions.Tick
                 [Sample.steady; Sample.steady; Sample.steady; Sample.steady])
            (Completions.mkWorker [Sample.requestAA; Sample.requestBB]
                                  Completions.Receiving)))
  = map submissionAddress [Sample.requestAA; Sample.requestBB].
Proof.
  apply (queue_drains_in_two_steps_per_request (H := Sample.parser) Sample.proc
           [Sample.steady; Sample.steady; Sample.steady; Sample.steady]
           [Sample.requestAA; Sample.requestBB]).
  - repeat constructor.
  - simpl. lia.
Defined.

(** ** submitOldJobsForCompletion *)

Section RecoveryExtras.
Context `{JSON}.
Import Recovery.

Lemma ForEach_entries (b : gmap bytes bytes) : ForEach b ≡ₚ map_to_list b.
Proof. unfold ForEach. apply merge_sort_Permutation. Qed.

Lemma requests_permutation (d : DB) :
  snd (submitOldJobsForCompletion d)
  ≡ₚ flat_map (fun kv => requestOf (snd kv)) (map_to_list (JobBucket d)).
Proof.
  unfold submitOldJobsForCompletion. simpl.
  rewrite (ForEach_entries (JobBucket d)). reflexivity.
Qed.


(** X16. Once the record of a job has been deleted, as the merge of its
    JobCompleted log does, the scan sends what it sent before less the
    request of that record: a completed job is not submitted again after a
    restart, and no other request is lost. *)
Theorem deleted_record_is_not_requeued
        (chain jobs : gmap bytes bytes) (a bs : bytes) :
  jobs !! a = Some bs ->
  snd (submitOldJobsForCompletion (mkDB chain jobs))
  ≡ₚ requestOf bs
      ++ snd (submitOldJobsForCompletion (mkDB chain (bolt.Delete jobs a))).
Proof.
  intros Ha.
  rewrite (requests_permutation (mkDB chain jobs)).
  rewrite (requests_permutation (mkDB chain (bolt.Delete jobs a))). simpl.
  unfold bolt.Delete.
  rewrite <- (map_to_list_delete jobs a bs Ha). reflexivity.
Qed.

End RecoveryExtras.

Lemma deleted_record_is_not_requeued_witness :
  snd (Recovery.submitOldJobsForCompletion (H := Sample.json)
         (mkDB ∅ Sample.bucketCC))
  ≡ₚ Recovery.requestOf (H := Sample.json) (Sample.encoded Sample.jobCC)
      ++ snd (Recovery.submitOldJobsForCompletion (H := Sample.json)
                (mkDB ∅ (bolt.Delete Sample.bucketCC (Sample.addr xcc)))).
Proof.
  apply (deleted_record_is_not_requeued (H := Sample.json) ∅ Sample.bucketCC
           (Sample.addr xcc) (Sample.encoded Sample.jobCC)).
  vm_compute. reflexivity.
Defined.
